(** * Logical and physical lvalue paths of SILGen

    A shallow embedding of [lib/SIL/SILGen/SILGenLValue.cpp]: the path
    components ([VarComponent], [FragileElementComponent],
    [GetterSetterComponent]) and the expression visitor [SILGenLValue]
    that builds an [LValue] out of them.

    Code generation is a computation over a [SILGenFunction]: the
    instructions emitted so far and the cleanups registered for
    ownership-tracked values.  A failed [assert] or an [llvm_unreachable]
    aborts the computation and leaves the state as it was at that point.

    The file uses the AST, the SIL builder, [ManagedValue], [TypeInfo] and
    [LValue] through their headers only.  Their data is declared here as
    far as the file reads it; what their operations do is taken from the
    specification of the subsystem and marked so, and what depends on the
    program being compiled is a parameter of the development. *)

From stdpp Require Import base list strings.

Set Default Proof Using "Type".
Open Scope string_scope.
Open Scope list_scope.

(** ** AST types

    The types the file tells apart: it asks whether a type is an
    [LValueType], for its qualifiers, and for its rvalue type. *)

(** Qualifiers of an lvalue type, a bit set in the compiler. *)
Definition Qual := N.

#[warnings="-register-all"] Inductive Ty : Type :=
| NominalType (name : string)
| TupleType (fields : list Ty)
| FunctionType (input result : Ty)
| LValueType (objectTy : Ty) (quals : Qual).

(** [t->is<LValueType>()] *)
Definition isLValueType (t : Ty) : bool :=
  match t with LValueType _ _ => true | _ => false end.

(** [t->getRValueType()]: the object type of an lvalue type, any other
    type unchanged. *)
Definition getRValueType (t : Ty) : Ty :=
  match t with LValueType obj _ => obj | _ => t end.

(** ** Declarations and expressions *)

(** Of a variable the visitor reads its name and whether it is a
    property. *)
Record VarDecl := mkVarDecl { getName : string; isProperty : bool }.

(** [dyn_cast<VarDecl>] succeeds on [VarDeclOf] only. *)
Inductive ValueDecl :=
| VarDeclOf (var : VarDecl)
| OtherValueDecl (name : string).

(** [SILConstant(decl, kind)] *)
Inductive ConstantKind := Func | Getter | Setter.

Record SILConstant := mkSILConstant { constantDecl : ValueDecl; constantKind : ConstantKind }.

(** The expression kinds the lvalue visitor has a case for; every other
    kind is [OtherExpr] and reaches [visitExpr]. *)
Inductive Expr :=
| DeclRefExpr (ty : Ty) (decl : ValueDecl)
| MemberRefExpr (ty : Ty) (base : Expr) (decl : VarDecl)
| TupleElementExpr (ty : Ty) (base : Expr) (fieldNumber : nat)
| AddressOfExpr (ty : Ty) (subExpr : Expr)
| ParenExpr (ty : Ty) (subExpr : Expr)
| RequalifyExpr (ty : Ty) (subExpr : Expr)
| OtherExpr (ty : Ty) (kind : string).

Definition getType (e : Expr) : Ty :=
  match e with
  | DeclRefExpr ty _ | MemberRefExpr ty _ _ | TupleElementExpr ty _ _
  | AddressOfExpr ty _ | ParenExpr ty _ | RequalifyExpr ty _ | OtherExpr ty _ => ty
  end.

(** ** SIL values and instructions *)

(** A non-null [Value]: the instruction defining it and its type. *)
Record ValueBase := mkValue { vdef : nat; vtype : Ty }.

(** [Value] converts to [bool]; the default-constructed [Value] is the
    null one. *)
Definition Value := option ValueBase.

Definition present (v : Value) : bool :=
  match v with Some _ => true | None => false end.

(** [v.getType()->is<LValueType>()] for a non-null [v]; reading the type of
    the null value is not defined in the source, here it is not an
    address. *)
Definition isAddress (v : Value) : bool :=
  match v with Some b => isLValueType (vtype b) | None => false end.

Definition SILLocation := nat.

(** The instructions the file and its collaborators emit. *)
Inductive SILInstruction :=
| RetainInst (loc : SILLocation) (operand : Value)
| ApplyInst (loc : SILLocation) (callee : Value) (args : list Value)
| ElementAddrInst (loc : SILLocation) (base : Value) (index : nat) (ty : Ty)
| LoadInst (loc : SILLocation) (address : Value)
| StoreInst (loc : SILLocation) (src dest : Value)
| ConstantRefInst (constant : SILConstant)
| GlobalAddrInst (decl : ValueDecl).

(** ** Ownership-tracked values *)

(** A registered cleanup is active until the value it releases is handed
    over. *)
Inductive CleanupState := Active | Dead.

Record Cleanup := mkCleanup { cleanupValue : Value; cleanupState : CleanupState }.

(** A handle on a cleanup: its depth in the cleanup stack. *)
Definition CleanupsDepth := nat.

(** What happened to the ownership of tracked values, oldest first: a
    ghost record the generator itself does not keep. *)
Inductive OwnershipEvent :=
| Acquire (h : CleanupsDepth) (v : Value)
| Forward (h : CleanupsDepth).

(** A value and, when its ownership is tracked, the cleanup that releases
    it. *)
Record ManagedValue := mkManaged { getValue : Value; getCleanup : option CleanupsDepth }.

(** [ManagedValue(v)]: a value with no cleanup. *)
Definition unmanaged (v : Value) : ManagedValue := mkManaged v None.

(** ** The code generator's state *)

Record SILGenFunction := mkGen {
  B : list SILInstruction;        (* emitted at the insertion point, oldest first *)
  Cleanups : list Cleanup;        (* the cleanup stack, position = depth *)
  ownership : list OwnershipEvent (* ghost log of acquisitions and hand-overs *)
}.

Inductive Fatal :=
| AssertionFailed (msg : string)
| Unreachable (msg : string).

Inductive Outcome (A : Type) :=
| Done (a : A)
| Abort (f : Fatal).
Arguments Done {A} a.
Arguments Abort {A} f.

(** A code-generation step: a result or a fatal error, and the state
    reached. *)
Definition Gen (A : Type) := SILGenFunction -> Outcome A * SILGenFunction.

Definition ret {A} (a : A) : Gen A := fun s => (Done a, s).

Definition bind {A C} (m : Gen A) (k : A -> Gen C) : Gen C :=
  fun s =>
    match m s with
    | (Done a, s') => k a s'
    | (Abort f, s') => (Abort f, s')
    end.

Definition fatal {A} (f : Fatal) : Gen A := fun s => (Abort f, s).

(** [assert(c && msg)] *)
Definition assert (c : bool) (msg : string) : Gen unit :=
  if c then ret tt else fatal (AssertionFailed msg).

(** [llvm_unreachable(msg)] *)
Definition llvm_unreachable {A} (msg : string) : Gen A := fatal (Unreachable msg).

Declare Scope gen_scope.
Delimit Scope gen_scope with gen.
Notation "x <- m ;; k" := (bind m (fun x => k))
  (at level 100, m at next level, right associativity) : gen_scope.
Open Scope gen_scope.

(** ** Type descriptors *)

(** [FragileElement{type, index}] *)
Record FragileElement := mkFragileElement { elementType : Ty; elementIndex : nat }.

(** What the visitor asks of a type's descriptor. *)
Record TypeInfo := mkTypeInfo {
  hasFragileElement : string -> bool;
  getFragileElement : string -> FragileElement
}.

(** ** Path components *)

Inductive PhysicalPathComponent :=
| VarComponent (address : Value)
| FragileElementComponent (element : FragileElement).

(** The one logical component of the file. *)
Record GetterSetterComponent := mkGetterSetter {
  getter : Value;
  setter : Value;
  subscript : Value
}.

Inductive PathComponent :=
| Physical (c : PhysicalPathComponent)
| Logical (c : GetterSetterComponent).

(** An [LValue] is its components, root first; [add] appends. *)
Definition LValue := list PathComponent.

Inductive ShouldPreserveValues := PreserveValues | DontPreserveValues.

(** ** Collaborators that change the state *)

(** Modelled from the spec: the IR Builder ([gen.B], whose class is not in
    this file) "emits address-arithmetic, ownership-increment,
    procedure-application and read/write-to-address instructions".  An
    instruction is appended at the insertion point; the value it defines
    is named by its position. *)
Definition emit (i : SILInstruction) : Gen nat :=
  fun s => (Done (length (B s)), mkGen (B s ++ [i]) (Cleanups s) (ownership s)).

(** Modelled from the spec: [gen.B.createRetain], the IR Builder's
    "ownership-increment". *)
Definition createRetain (loc : SILLocation) (v : Value) : Gen unit :=
  _ <- emit (RetainInst loc v) ;; ret tt.

(** Modelled from the spec: [gen.B.createElementAddr], the IR Builder's
    "address-arithmetic (base + field descriptor -> derived address)"; the
    derived address has the type the caller asks for. *)
Definition createElementAddr (loc : SILLocation) (base : Value) (index : nat)
    (ty : Ty) : Gen Value :=
  n <- emit (ElementAddrInst loc base index ty) ;; ret (Some (mkValue n ty)).

(** Modelled from the spec: the write-to-address instruction of the IR
    Builder. *)
Definition createStore (loc : SILLocation) (src dest : Value) : Gen unit :=
  _ <- emit (StoreInst loc src dest) ;; ret tt.

(** The cleanup of a value that was handed over. *)
Definition kill (c : Cleanup) : Cleanup := mkCleanup (cleanupValue c) Dead.

(** Modelled from the spec: [gen.emitManagedRValueWithCleanup] of the
    ownership-tracked value wrapper (ManagedValue.h and the cleanup stack
    are not in this file), which "supports forward/consume (transfers
    ownership, invalidates the wrapper) and automatic release on scope
    exit if never forwarded".  The release of [v] is registered on the
    cleanup stack and the tracked value handed out. *)
Definition emitManagedRValueWithCleanup (v : Value) : Gen ManagedValue :=
  fun s =>
    let h := length (Cleanups s) in
    (Done (mkManaged v (Some h)),
     mkGen (B s) (Cleanups s ++ [mkCleanup v Active]) (ownership s ++ [Acquire h v])).

(** Modelled from the spec: giving up a registered cleanup, the
    "transfers ownership" half of forward/consume. *)
Definition forwardCleanup (h : CleanupsDepth) : Gen unit :=
  fun s =>
    (Done tt, mkGen (B s) (alter kill h (Cleanups s)) (ownership s ++ [Forward h])).

(** Modelled from the spec: [mv.forward(gen)], "forward/consume": the
    cleanup, if there is one, is given up and the value returned. *)
Definition forward (mv : ManagedValue) : Gen Value :=
  match getCleanup mv with
  | Some h => _ <- forwardCleanup h ;; ret (getValue mv)
  | None => ret (getValue mv)
  end.

(** Modelled from the spec: [mv.getUnmanagedValue()], the value of a
    wrapper that tracks no ownership. *)
Definition getUnmanagedValue (mv : ManagedValue) : Value := getValue mv.

Section Lowering.

(** The collaborators whose answers depend on the program being compiled. *)

(** The type the IR Builder gives the value an instruction defines, where
    the caller does not choose it. *)
Variable resultType : SILInstruction -> Ty.

(** [gen.emitConstantRef(e, constant)] *)
Variable emitConstantRef :
  Expr -> SILConstant -> SILGenFunction -> ManagedValue * SILGenFunction.

(** [gen.emitReferenceToDecl(e, decl)] *)
Variable emitReferenceToDecl :
  Expr -> ValueDecl -> SILGenFunction -> ManagedValue * SILGenFunction.

(** [gen.getTypeInfo(type)] *)
Variable getTypeInfo : Ty -> TypeInfo.

(** A collaborator that cannot fail, as a step. *)
Definition lift {A} (f : SILGenFunction -> A * SILGenFunction) : Gen A :=
  fun s => let (a, s') := f s in (Done a, s').

(** Modelled from the spec: [gen.B.createApply], the IR Builder's
    "procedure-application (callable + one argument -> result)"; the final
    application of a getter thunk has no argument left. *)
Definition createApply (loc : SILLocation) (callee : Value) (args : list Value)
    : Gen Value :=
  n <- emit (ApplyInst loc callee args) ;;
  ret (Some (mkValue n (resultType (ApplyInst loc callee args)))).

(** Modelled from the spec: [gen.emitGetProperty] is not in this file;
    "invoking the resulting thunk with zero remaining arguments yields the
    current value", an ownership-tracked one. *)
Definition emitGetProperty (loc : SILLocation) (getter : ManagedValue)
    : Gen ManagedValue :=
  thunk <- forward getter ;;
  result <- createApply loc thunk [] ;;
  emitManagedRValueWithCleanup result.

(** *** [VarComponent] *)

(** The constructor. *)
Definition newVarComponent (address : Value) : Gen PhysicalPathComponent :=
  _ <- assert (isAddress address) "var component value must be an address" ;;
  ret (VarComponent address).

(** *** [GetterSetterComponent] *)

Definition newGetterSetterComponent (getter setter subscript : Value)
    : Gen GetterSetterComponent :=
  _ <- assert (present getter && present setter)
         "settable lvalue must have both getter and setter" ;;
  ret (mkGetterSetter getter setter subscript).

Definition partialApplyAccessor (c : GetterSetterComponent) (loc : SILLocation)
    (accessor base : Value) : Gen ManagedValue :=
  _ <- assert (negb (present base) || isAddress base)
         "base of getter/setter component must be invalid or lvalue" ;;
  _ <- createRetain loc accessor ;;
  (* Apply the base "this" argument, if any. *)
  appliedThis <-
    (if present base
     then applied <- createApply loc accessor [base] ;;
          emitManagedRValueWithCleanup applied
     else ret (unmanaged accessor)) ;;
  (* Apply the subscript argument, if any. *)
  appliedSubscript <-
    (if present (subscript c)
     then thunk <- forward appliedThis ;;
          applied <- createApply loc thunk [subscript c] ;;
          emitManagedRValueWithCleanup applied
     else ret appliedThis) ;;
  ret appliedSubscript.

Definition storeRValue (c : GetterSetterComponent) (loc : SILLocation)
    (rvalue base : Value) (preserve : ShouldPreserveValues) : Gen unit :=
  appliedSetter <- partialApplyAccessor c loc (setter c) base ;;
  thunk <- forward appliedSetter ;;
  _ <- createApply loc thunk [rvalue] ;;
  ret tt.

Definition loadAndMaterialize (c : GetterSetterComponent) (loc : SILLocation)
    (base : Value) (preserve : ShouldPreserveValues) : Gen ManagedValue :=
  appliedGetter <- partialApplyAccessor c loc (getter c) base ;;
  emitGetProperty loc appliedGetter.

(** *** [PhysicalPathComponent::offset] *)

Definition offset (c : PhysicalPathComponent) (loc : SILLocation) (base : Value)
    : Gen Value :=
  match c with
  | VarComponent address =>
      _ <- assert (negb (present base)) "var component must be root of lvalue path" ;;
      ret address
  | FragileElementComponent element =>
      _ <- assert (present base) "invalid value for element base" ;;
      _ <- assert (isAddress base) "base for element component must be an address" ;;
      (* [castTo<LValueType>()]: the assertion has checked the type, the
         last case is not reached. *)
      match base with
      | Some (mkValue _ (LValueType _ quals)) =>
          createElementAddr loc base (elementIndex element)
            (LValueType (elementType element) quals)
      | _ => fatal (AssertionFailed "base for element component must be an address")
      end
  end.

(** ** The visitor [SILGenLValue] *)

(** [lv.add<VarComponent>(address)] *)
Definition addVarComponent (lv : LValue) (address : Value) : Gen LValue :=
  c <- newVarComponent address ;; ret (lv ++ [Physical c]).

(** [lv.add<FragileElementComponent>(element)] *)
Definition addFragileElementComponent (lv : LValue) (element : FragileElement)
    : Gen LValue :=
  ret (lv ++ [Physical (FragileElementComponent element)]).

(** [lv.add<GetterSetterComponent>(getter, setter)]; the subscript is
    defaulted to the null value. *)
Definition addGetterSetterComponent (lv : LValue) (getter setter : Value)
    : Gen LValue :=
  c <- newGetterSetterComponent getter setter None ;; ret (lv ++ [Logical c]).

(** [e->dump()] writes the expression to the error stream before the
    abort; nothing of the state changes. *)
Definition visitExpr (e : Expr) : Gen LValue :=
  llvm_unreachable "unimplemented lvalue expr".

Definition visitDeclRefExpr (e : Expr) (decl : ValueDecl) : Gen LValue :=
  let lv : LValue := [] in
  let physical :=
    (* If it's a physical value, push the address. *)
    ref <- lift (emitReferenceToDecl e decl) ;;
    let address := getUnmanagedValue ref in
    _ <- assert (isAddress address)
           "physical lvalue decl ref must evaluate to an address" ;;
    addVarComponent lv address in
  match decl with
  | VarDeclOf var =>
      if isProperty var
      then
        (* If it's a property, push a reference to the getter and setter;
           the two [forward]s are arguments of one call, taken left first. *)
        get <- lift (emitConstantRef e (mkSILConstant (VarDeclOf var) Getter)) ;;
        set <- lift (emitConstantRef e (mkSILConstant (VarDeclOf var) Setter)) ;;
        g <- forward get ;;
        st <- forward set ;;
        addGetterSetterComponent lv g st
      else physical
  | OtherValueDecl _ => physical
  end.

Definition visitMemberRefExpr (visit : Expr -> Gen LValue) (e base : Expr)
    (decl : VarDecl) : Gen LValue :=
  lv <- visit base ;;
  let ti := getTypeInfo (getRValueType (getType base)) in
  if hasFragileElement ti (getName decl)
  then addFragileElementComponent lv (getFragileElement ti (getName decl))
  else
    get <- lift (emitConstantRef e (mkSILConstant (VarDeclOf decl) Getter)) ;;
    set <- lift (emitConstantRef e (mkSILConstant (VarDeclOf decl) Setter)) ;;
    g <- forward get ;;
    st <- forward set ;;
    addGetterSetterComponent lv g st.

Definition visitTupleElementExpr (visit : Expr -> Gen LValue) (e base : Expr)
    (fieldNumber : nat) : Gen LValue :=
  lv <- visit base ;;
  addFragileElementComponent lv
    (mkFragileElement (getRValueType (getType e)) fieldNumber).

Definition visitAddressOfExpr (visit : Expr -> Gen LValue) (subExpr : Expr)
    : Gen LValue :=
  visit subExpr.

Definition visitParenExpr (visit : Expr -> Gen LValue) (subExpr : Expr)
    : Gen LValue :=
  visit subExpr.

Definition visitRequalifyExpr (visit : Expr -> Gen LValue) (e subExpr : Expr)
    : Gen LValue :=
  _ <- assert (isLValueType (getType e))
         "non-lvalue requalify in lvalue expression" ;;
  visit subExpr.

(** The dispatch on the kind of the expression. *)
Fixpoint visit (e : Expr) : Gen LValue :=
  match e with
  | DeclRefExpr _ decl => visitDeclRefExpr e decl
  | MemberRefExpr _ base decl => visitMemberRefExpr visit e base decl
  | TupleElementExpr _ base fieldNumber => visitTupleElementExpr visit e base fieldNumber
  | AddressOfExpr _ subExpr => visitAddressOfExpr visit subExpr
  | ParenExpr _ subExpr => visitParenExpr visit subExpr
  | RequalifyExpr _ subExpr => visitRequalifyExpr visit e subExpr
  | OtherExpr _ _ => visitExpr e
  end.

(** ** The path evaluator *)

(** Modelled from the spec: the IR Builder's read-from-address
    instruction. *)
Definition createLoad (loc : SILLocation) (address : Value) : Gen Value :=
  n <- emit (LoadInst loc address) ;;
  ret (Some (mkValue n (resultType (LoadInst loc address)))).

(** Modelled from the spec: the Path Evaluator is not in this file.  One
    step of its fold: "resolve it per its kind (address arithmetic for
    Physical, full getter invocation for Logical) to obtain the next
    base". *)
Definition resolve (preserve : ShouldPreserveValues) (loc : SILLocation)
    (c : PathComponent) (base : Value) : Gen Value :=
  match c with
  | Physical p => offset p loc base
  | Logical l => mv <- loadAndMaterialize l loc base preserve ;; ret (getValue mv)
  end.

(** Modelled from the spec: the evaluator's "fold left-to-right" over
    components that are not the final one. *)
Fixpoint resolvePath (preserve : ShouldPreserveValues) (loc : SILLocation)
    (path : LValue) (base : Value) : Gen Value :=
  match path with
  | [] => ret base
  | c :: rest =>
      next <- resolve preserve loc c base ;;
      resolvePath preserve loc rest next
  end.

(** Modelled from the spec: what load does at the final component, "if
    Physical, its resolved address is where the caller issues a read; if
    Logical, its getter invocation's result value is the load result". *)
Definition loadFinal (preserve : ShouldPreserveValues) (loc : SILLocation)
    (c : PathComponent) (base : Value) : Gen ManagedValue :=
  match c with
  | Physical p =>
      address <- offset p loc base ;;
      v <- createLoad loc address ;;
      emitManagedRValueWithCleanup v
  | Logical l => loadAndMaterialize l loc base preserve
  end.

(** Modelled from the spec: what store does at the final component, "if
    Physical, caller issues a write to the resolved address; if Logical,
    invoke the setter end-to-end with value as the final argument". *)
Definition storeFinal (preserve : ShouldPreserveValues) (loc : SILLocation)
    (c : PathComponent) (value base : Value) : Gen unit :=
  match c with
  | Physical p =>
      address <- offset p loc base ;;
      createStore loc value address
  | Logical l => storeRValue l loc value base preserve
  end.

(** Modelled from the spec: [load(path)] from a given base; a Path is
    "non-empty", an empty one breaks that invariant. *)
Fixpoint loadFrom (preserve : ShouldPreserveValues) (loc : SILLocation)
    (path : LValue) (base : Value) : Gen ManagedValue :=
  match path with
  | [] => fatal (AssertionFailed "lvalue must have at least one component")
  | c :: rest =>
      match rest with
      | [] => loadFinal preserve loc c base
      | _ :: _ =>
          next <- resolve preserve loc c base ;;
          loadFrom preserve loc rest next
      end
  end.

(** Modelled from the spec: [store(path, value)] from a given base,
    "identical resolution through all but the final component". *)
Fixpoint storeFrom (preserve : ShouldPreserveValues) (loc : SILLocation)
    (path : LValue) (value base : Value) : Gen unit :=
  match path with
  | [] => fatal (AssertionFailed "lvalue must have at least one component")
  | c :: rest =>
      match rest with
      | [] => storeFinal preserve loc c value base
      | _ :: _ =>
          next <- resolve preserve loc c base ;;
          storeFrom preserve loc rest value next
      end
  end.

(** Modelled from the spec: the exposed [load(Path)]; the first component
    is given the absent base. *)
Definition load (preserve : ShouldPreserveValues) (loc : SILLocation)
    (path : LValue) : Gen ManagedValue :=
  loadFrom preserve loc path None.

(** Modelled from the spec: the exposed [store(Path, value)]. *)
Definition store (preserve : ShouldPreserveValues) (loc : SILLocation)
    (path : LValue) (value : Value) : Gen unit :=
  storeFrom preserve loc path value None.

End Lowering.

(** ** What the accessor invoker and the logical component are to do

    The statements the theorems below are about, written once so that
    they can be proved where they hold and refuted where they do not. *)
Section Contracts.

Variable resultType : SILInstruction -> Ty.

(** [mv] has a cleanup registered for its value on the cleanup stack of
    [s]. *)
Definition tracked (s : SILGenFunction) (mv : ManagedValue) : Prop :=
  exists h, getCleanup mv = Some h /\
            cleanupValue <$> (Cleanups s !! h) = Some (getValue mv).

(** The value the instruction at position [n] defines when it applies
    [callee] to [args]. *)
Definition applied (loc : SILLocation) (n : nat) (callee : Value)
    (args : list Value) : Value :=
  Some (mkValue n (resultType (ApplyInst loc callee args))).

(** A curried call: [f] applied to the argument lists in turn, each
    application on the value the one before it defined; the first
    application is the instruction at position [n]. *)
Fixpoint applyChain (loc : SILLocation) (n : nat) (f : Value)
    (argss : list (list Value)) : list SILInstruction :=
  match argss with
  | [] => []
  | args :: rest =>
      ApplyInst loc f args :: applyChain loc (S n) (applied loc n f args) rest
  end.

(** The value of the whole curried call. *)
Fixpoint chainResult (loc : SILLocation) (n : nat) (f : Value)
    (argss : list (list Value)) : Value :=
  match argss with
  | [] => f
  | args :: rest => chainResult loc (S n) (applied loc n f args) rest
  end.

(** An optional argument: applied when present, skipped when not. *)
Definition optional (v : Value) : list (list Value) :=
  if present v then [[v]] else [].

(** The assertion at the head of the invoker: the receiver is absent, or
    an address. *)
Definition baseAccepted (base : Value) : bool :=
  negb (present base) || isAddress base.

(** The failure of the logical component's constructor. *)
Definition accessorFailure : Fatal :=
  AssertionFailed "settable lvalue must have both getter and setter".

(** The invoker, in the words of its description: the accessor is retained
    first; a present receiver is applied to give a tracked first
    intermediate, which otherwise is the accessor itself; a present index
    is applied to the first intermediate to give a tracked second one,
    which otherwise is the first; the second intermediate is returned. *)
Definition InvokerContract (c : GetterSetterComponent) (loc : SILLocation)
    (accessor base : Value) (s : SILGenFunction) : Prop :=
  exists (intermediate1 intermediate2 : ManagedValue) (s' : SILGenFunction),
    partialApplyAccessor resultType c loc accessor base s = (Done intermediate2, s') /\
    B s' = B s ++ RetainInst loc accessor
                  :: (if present base then [ApplyInst loc accessor [base]] else [])
                  ++ (if present (subscript c)
                      then [ApplyInst loc (getValue intermediate1) [subscript c]]
                      else []) /\
    (if present base
     then tracked s' intermediate1 /\
          getValue intermediate1 = applied loc (S (length (B s))) accessor [base]
     else intermediate1 = unmanaged accessor) /\
    (if present (subscript c)
     then tracked s' intermediate2 /\
          getValue intermediate2 =
            applied loc (S (length (B s)) + length (optional base))
              (getValue intermediate1) [subscript c]
     else intermediate2 = intermediate1).

(** Store on a logical component: the setter is applied once, to the
    receiver if there is one, then the index if there is one, then the new
    value, and nothing else is applied. *)
Definition StoreContract (c : GetterSetterComponent) (loc : SILLocation)
    (rvalue base : Value) (preserve : ShouldPreserveValues)
    (s : SILGenFunction) : Prop :=
  exists s' : SILGenFunction,
    storeRValue resultType c loc rvalue base preserve s = (Done tt, s') /\
    B s' = B s ++ RetainInst loc (setter c)
                  :: applyChain loc (S (length (B s))) (setter c)
                       (optional base ++ optional (subscript c) ++ [[rvalue]]).

(** Load on a logical component: the getter is applied once, to the
    receiver if there is one, then the index if there is one, then to no
    further argument, and the value of that call is the result. *)
Definition LoadContract (c : GetterSetterComponent) (loc : SILLocation)
    (base : Value) (preserve : ShouldPreserveValues)
    (s : SILGenFunction) : Prop :=
  exists (result : ManagedValue) (s' : SILGenFunction),
    loadAndMaterialize resultType c loc base preserve s = (Done result, s') /\
    B s' = B s ++ RetainInst loc (getter c)
                  :: applyChain loc (S (length (B s))) (getter c)
                       (optional base ++ optional (subscript c) ++ [[]]) /\
    getValue result =
      chainResult loc (S (length (B s))) (getter c)
        (optional base ++ optional (subscript c) ++ [[]]).

(** The values the applications of a curried call define, in order. *)
Fixpoint chainValues (loc : SILLocation) (n : nat) (f : Value)
    (argss : list (list Value)) : list Value :=
  match argss with
  | [] => []
  | args :: rest =>
      applied loc n f args :: chainValues loc (S n) (applied loc n f args) rest
  end.

(** The application steps the invoker performs for a component and a
    receiver: one for a present receiver, one for a present index. *)
Definition accessorSteps (c : GetterSetterComponent) (base : Value)
    : list (list Value) :=
  optional base ++ optional (subscript c).

(** One acquire/release pair in the ownership log: the cleanup [h] is
    registered for [v], and given up. *)
Definition pairOf (hv : CleanupsDepth * Value) : list OwnershipEvent :=
  [Acquire hv.1 hv.2; Forward hv.1].

(** The cleanup of a released intermediate. *)
Definition released (hv : CleanupsDepth * Value) : Cleanup :=
  mkCleanup hv.2 Dead.

(** The kinds of component a path may start with, and go on with. *)
Definition isRoot (c : PathComponent) : Prop :=
  match c with
  | Physical (VarComponent address) => isAddress address = true
  | Physical (FragileElementComponent _) => False
  | Logical _ => True
  end.

Definition isLater (c : PathComponent) : Prop :=
  match c with
  | Physical (VarComponent _) => False
  | Physical (FragileElementComponent _) => True
  | Logical _ => True
  end.

(** A path starts with a root and goes on with components that take a
    base. *)
Definition wellFormedPath (lv : LValue) : Prop :=
  match lv with
  | [] => False
  | first :: rest => isRoot first /\ Forall isLater rest
  end.

(** The wrappers that add nothing to a path: parentheses and the
    address-of marker, each with the type of the wrapped expression. *)
Inductive Wrapper :=
| InParens (ty : Ty)
| InAddressOf (ty : Ty).

(** [e] under a stack of wrappers, the outermost first. *)
Fixpoint wrap (ws : list Wrapper) (e : Expr) : Expr :=
  match ws with
  | [] => e
  | InParens ty :: rest => ParenExpr ty (wrap rest e)
  | InAddressOf ty :: rest => AddressOfExpr ty (wrap rest e)
  end.

(** Both accessors of a logical component are there. *)
Definition hasBothAccessors (c : PathComponent) : Prop :=
  match c with
  | Logical l => present (getter l) = true /\ present (setter l) = true
  | Physical _ => True
  end.

End Contracts.

(** ** A small program to run the definitions on

    A struct [Point] with a stored field [x] at position 0 and a computed
    property [norm]; a variable [origin : Point]; a computed global
    [shared : Point].  Any declaration that is not a variable is lowered
    to a function reference. *)
Module Sample.

Definition Int := NominalType "Int".
Definition Point := NominalType "Point".

Definition resultType (i : SILInstruction) : Ty :=
  match i with
  | ApplyInst _ (Some (mkValue _ (FunctionType _ result))) _ => result
  | LoadInst _ (Some (mkValue _ (LValueType obj _))) => obj
  | _ => TupleType []
  end.

Definition accessorType (name : string) (k : ConstantKind) : Ty :=
  let owner := if String.eqb name "norm" then Point else TupleType [] in
  let value := if String.eqb name "norm" then Int else Point in
  match k with
  | Getter => FunctionType (LValueType owner 0%N) (FunctionType (TupleType []) value)
  | Setter => FunctionType (LValueType owner 0%N) (FunctionType value (TupleType []))
  | Func => FunctionType (TupleType []) value
  end.

Definition declName (d : ValueDecl) : string :=
  match d with VarDeclOf v => getName v | OtherValueDecl n => n end.

Definition emitConstantRef (e : Expr) (c : SILConstant) (s : SILGenFunction)
    : ManagedValue * SILGenFunction :=
  (unmanaged (Some (mkValue (length (B s))
                      (accessorType (declName (constantDecl c)) (constantKind c)))),
   mkGen (B s ++ [ConstantRefInst c]) (Cleanups s) (ownership s)).

Definition emitReferenceToDecl (e : Expr) (d : ValueDecl) (s : SILGenFunction)
    : ManagedValue * SILGenFunction :=
  match d with
  | VarDeclOf _ =>
      (unmanaged (Some (mkValue (length (B s)) (LValueType Point 0%N))),
       mkGen (B s ++ [GlobalAddrInst d]) (Cleanups s) (ownership s))
  | OtherValueDecl _ =>
      (unmanaged (Some (mkValue (length (B s)) (FunctionType (TupleType []) Point))),
       mkGen (B s ++ [ConstantRefInst (mkSILConstant d Func)]) (Cleanups s) (ownership s))
  end.

Definition getTypeInfo (t : Ty) : TypeInfo :=
  match t with
  | NominalType "Point" =>
      mkTypeInfo (fun n => String.eqb n "x") (fun _ => mkFragileElement Int 0)
  | _ => mkTypeInfo (fun _ => false) (fun _ => mkFragileElement (TupleType []) 0)
  end.

Definition start : SILGenFunction := mkGen [] [] [].

Definition origin := DeclRefExpr (LValueType Point 0%N) (VarDeclOf (mkVarDecl "origin" false)).
Definition shared := DeclRefExpr (LValueType Point 0%N) (VarDeclOf (mkVarDecl "shared" true)).
Definition origin_x := MemberRefExpr (LValueType Int 0%N) origin (mkVarDecl "x" false).
Definition origin_norm := MemberRefExpr (LValueType Int 0%N) origin (mkVarDecl "norm" true).
Definition shared_norm := MemberRefExpr (LValueType Int 0%N) shared (mkVarDecl "norm" true).

Definition build := visit emitConstantRef emitReferenceToDecl getTypeInfo.

(** The values the sample program's lowering gives names to. *)
Definition origin_address : Value := Some (mkValue 0 (LValueType Point 0%N)).
Definition norm_getter : Value := Some (mkValue 1 (accessorType "norm" Getter)).
Definition norm_setter : Value := Some (mkValue 2 (accessorType "norm" Setter)).
Definition shared_getter : Value := Some (mkValue 0 (accessorType "shared" Getter)).
Definition shared_setter : Value := Some (mkValue 1 (accessorType "shared" Setter)).

(** A value of type [Point], not the address of one; an [Int]. *)
Definition point_value : Value := Some (mkValue 5 Point).
Definition int_value : Value := Some (mkValue 9 Int).

Definition norm : GetterSetterComponent :=
  mkGetterSetter norm_getter norm_setter None.
Definition shared_property : GetterSetterComponent :=
  mkGetterSetter shared_getter shared_setter None.
(** A logical component with an index. *)
Definition indexed : GetterSetterComponent :=
  mkGetterSetter norm_getter norm_setter int_value.

End Sample.

(** ** The spine of an lvalue expression

    The visitor walks from an expression down its base and sub-expression
    links to the innermost one, and appends components on the way back. *)

(** Whether the walk down reaches a declaration reference without meeting
    a requalification to a type that is not an lvalue type, or a kind of
    expression the visitor has no case for. *)
Fixpoint lowerable (e : Expr) : bool :=
  match e with
  | DeclRefExpr _ _ => true
  | MemberRefExpr _ base _ | TupleElementExpr _ base _ => lowerable base
  | AddressOfExpr _ subExpr | ParenExpr _ subExpr => lowerable subExpr
  | RequalifyExpr ty subExpr => isLValueType ty && lowerable subExpr
  | OtherExpr _ _ => false
  end.

(** The expressions of the spine that stand for a location of their own:
    the declaration reference, member accesses and tuple elements. *)
Fixpoint spineLength (e : Expr) : nat :=
  match e with
  | DeclRefExpr _ _ => 1
  | MemberRefExpr _ base _ | TupleElementExpr _ base _ => S (spineLength base)
  | AddressOfExpr _ subExpr | ParenExpr _ subExpr
  | RequalifyExpr _ subExpr => spineLength subExpr
  | OtherExpr _ _ => 0
  end.

(** [decl] is a variable that is a property. *)
Definition isPropertyDecl (decl : ValueDecl) : bool :=
  match decl with
  | VarDeclOf var => isProperty var
  | OtherValueDecl _ => false
  end.

(** The declaration reference under tuple elements, parentheses,
    address-of markers and requalifications to lvalue types, when the
    expression is made of these only and the declaration is not a
    property. *)
Fixpoint storedRoot (e : Expr) : option (Expr * ValueDecl) :=
  match e with
  | DeclRefExpr _ decl => if isPropertyDecl decl then None else Some (e, decl)
  | TupleElementExpr _ base _ => storedRoot base
  | AddressOfExpr _ subExpr | ParenExpr _ subExpr => storedRoot subExpr
  | RequalifyExpr ty subExpr => if isLValueType ty then storedRoot subExpr else None
  | MemberRefExpr _ _ _ | OtherExpr _ _ => None
  end.

(** The tuple elements selected along the spine, innermost first, each
    with the rvalue type of its expression. *)
Fixpoint tupleProjections (e : Expr) : list FragileElement :=
  match e with
  | TupleElementExpr ty base fieldNumber =>
      tupleProjections base ++ [mkFragileElement (getRValueType ty) fieldNumber]
  | AddressOfExpr _ subExpr | ParenExpr _ subExpr
  | RequalifyExpr _ subExpr => tupleProjections subExpr
  | DeclRefExpr _ _ | MemberRefExpr _ _ _ | OtherExpr _ _ => []
  end.

(** Successive [offset]s: each physical component on the value the one
    before it gave. *)
Fixpoint offsetChain (loc : SILLocation) (cs : list PhysicalPathComponent)
    (base : Value) : Gen Value :=
  match cs with
  | [] => ret base
  | c :: rest => r <- offset c loc base ;; offsetChain loc rest r
  end.

(** The element-address instructions a run of fragile elements asks for,
    from the address [base] whose type has the qualifiers [quals]; the
    first of them is the instruction at position [n]. *)
Fixpoint elementAddrs (loc : SILLocation) (n : nat) (base : Value) (quals : Qual)
    (els : list FragileElement) : list SILInstruction :=
  match els with
  | [] => []
  | el :: rest =>
      let ty := LValueType (elementType el) quals in
      ElementAddrInst loc base (elementIndex el) ty
        :: elementAddrs loc (S n) (Some (mkValue n ty)) quals rest
  end.

(** The address the last of them defines. *)
Fixpoint elementAddress (n : nat) (base : Value) (quals : Qual)
    (els : list FragileElement) : Value :=
  match els with
  | [] => base
  | el :: rest =>
      elementAddress (S n) (Some (mkValue n (LValueType (elementType el) quals)))
        quals rest
  end.

(** A variable component as its constructor leaves it. *)
Definition constructed (c : PhysicalPathComponent) : Prop :=
  match c with
  | VarComponent address => isAddress address = true
  | FragileElementComponent _ => True
  end.

(** The failures of the visitor, beside [accessorFailure]. *)
Definition unimplemented : Fatal := Unreachable "unimplemented lvalue expr".
Definition notAnAddress : Fatal :=
  AssertionFailed "physical lvalue decl ref must evaluate to an address".
Definition badRequalify : Fatal :=
  AssertionFailed "non-lvalue requalify in lvalue expression".

(** ** A second sample: a variable [pair : ((Int, Int), Int)] *)
Module TupleSample.

Definition Inner := TupleType [Sample.Int; Sample.Int].
Definition Outer := TupleType [Inner; Sample.Int].

(** Every declaration is stored at an address. *)
Definition emitReferenceToDecl (e : Expr) (d : ValueDecl) (s : SILGenFunction)
    : ManagedValue * SILGenFunction :=
  (unmanaged (Some (mkValue (length (B s)) (LValueType Outer 1%N))),
   mkGen (B s ++ [GlobalAddrInst d]) (Cleanups s) (ownership s)).

Definition build :=
  visit Sample.emitConstantRef emitReferenceToDecl Sample.getTypeInfo.

Definition pair := DeclRefExpr (LValueType Outer 1%N) (VarDeclOf (mkVarDecl "pair" false)).
Definition pair_0 := TupleElementExpr (LValueType Inner 1%N) (ParenExpr (LValueType Outer 1%N) pair) 0.
(** [(&pair.0).1] *)
Definition pair_0_1 :=
  TupleElementExpr (LValueType Sample.Int 1%N)
    (ParenExpr (LValueType Inner 1%N) (AddressOfExpr (LValueType Inner 1%N) pair_0)) 1.

Definition pair_address : Value := Some (mkValue 0 (LValueType Outer 1%N)).

End TupleSample.

(** * Properties *)

Section Facts.

Variable resultType : SILInstruction -> Ty.
Variable emitConstantRef :
  Expr -> SILConstant -> SILGenFunction -> ManagedValue * SILGenFunction.
Variable emitReferenceToDecl :
  Expr -> ValueDecl -> SILGenFunction -> ManagedValue * SILGenFunction.
Variable getTypeInfo : Ty -> TypeInfo.

Local Abbreviation visit := (visit emitConstantRef emitReferenceToDecl getTypeInfo).
Local Abbreviation partialApplyAccessor := (partialApplyAccessor resultType).
Local Abbreviation storeRValue := (storeRValue resultType).
Local Abbreviation loadAndMaterialize := (loadAndMaterialize resultType).

Implicit Types (s : SILGenFunction) (c : GetterSetterComponent)
  (base accessor rvalue : Value) (loc : SILLocation)
  (preserve : ShouldPreserveValues) (e : Expr) (lv : LValue).

(** *** Bookkeeping on the state *)

Lemma alter_last {A} (f : A -> A) (l : list A) (x : A) :
  alter f (length l) (l ++ [x]) = l ++ [f x].
Proof. by rewrite <- (Nat.add_0_r (length l)), alter_app_r. Qed.

Lemma lookup_last {A} (l : list A) (x : A) : (l ++ [x]) !! length l = Some x.
Proof. by apply list_lookup_middle. Qed.

Lemma lookup_before_last {A} (l : list A) (x y : A) :
  (l ++ [x; y]) !! length l = Some x.
Proof. by apply list_lookup_middle. Qed.

Lemma lookup_second_last {A} (l : list A) (x y : A) :
  (l ++ [x; y]) !! S (length l) = Some y.
Proof.
  replace (l ++ [x; y]) with ((l ++ [x]) ++ [y]) by by rewrite <- app_assoc.
  apply list_lookup_middle. rewrite length_app. simpl. lia.
Qed.

Lemma bind_done {A C} (m : Gen A) (k : A -> Gen C) s a s' :
  m s = (Done a, s') -> bind m k s = k a s'.
Proof. unfold bind. by intros ->. Qed.

Lemma bind_abort {A C} (m : Gen A) (k : A -> Gen C) s f s' :
  m s = (Abort f, s') -> bind m k s = (Abort f, s').
Proof. unfold bind. by intros ->. Qed.

(** Runs a straight-line piece of code generation on a symbolic state. *)
Ltac run :=
  unfold storeRValue, loadAndMaterialize, partialApplyAccessor, emitGetProperty,
    createApply, createRetain, createElementAddr, createStore, createLoad,
    emitManagedRValueWithCleanup, forward, forwardCleanup, emit, bind, ret,
    assert, fatal, unmanaged, applied;
  cbn;
  rewrite ?alter_last; cbn;
  rewrite ?alter_last; cbn;
  rewrite ?length_app; cbn;
  rewrite <- ?app_assoc; cbn;
  rewrite ?Nat.add_1_r, ?Nat.add_0_r; cbn.

(** C6: a fragile element offset from a present base of address type emits
    one element-address instruction on that base and the element's index,
    and yields its value, typed as an address of the element's type with
    the qualifiers of the base's type; with an absent base, or one that is
    not an address, it fails an assertion and emits nothing. *)
Theorem FragileElementComponent_offset (element : FragileElement) loc s :
  (forall d obj quals,
     let base := Some (mkValue d (LValueType obj quals)) in
     let address := LValueType (elementType element) quals in
     offset (FragileElementComponent element) loc base s =
       (Done (Some (mkValue (length (B s)) address)),
        mkGen (B s ++ [ElementAddrInst loc base (elementIndex element) address])
              (Cleanups s) (ownership s))) /\
  offset (FragileElementComponent element) loc None s =
    (Abort (AssertionFailed "invalid value for element base"), s) /\
  (forall b,
     isLValueType (vtype b) = false ->
     offset (FragileElementComponent element) loc (Some b) s =
       (Abort (AssertionFailed "base for element component must be an address"), s)).
Proof.
  split; [|split].
  - by intros d obj quals.
  - done.
  - intros [d t] Ht. simpl in Ht. unfold offset, bind, assert. simpl. by rewrite Ht.
Qed.

(** C7: an expression in parentheses, or under an address-of marker, is
    lowered exactly as the expression itself: the same outcome, path and
    state, with no component of its own; and so is an expression under
    any stack of the two. *)
Theorem visit_pass_through ty e :
  visit (ParenExpr ty e) = visit e /\
  visit (AddressOfExpr ty e) = visit e /\
  forall ws, visit (wrap ws e) = visit e.
Proof.
  split; [reflexivity|]. split; [reflexivity|].
  induction ws as [|[ty'|ty'] ws IH]; [reflexivity| |]; exact IH.
Qed.

(** C10: load and store on a logical component do not look at the
    preserve flag: with two values of it and everything else the same they
    give the same result and the same state, so the same instructions. *)
Theorem preserve_is_ignored c loc rvalue base s (p1 p2 : ShouldPreserveValues) :
  loadAndMaterialize c loc base p1 s = loadAndMaterialize c loc base p2 s /\
  storeRValue c loc rvalue base p1 s = storeRValue c loc rvalue base p2 s.
Proof. split; reflexivity. Qed.

(** *** The accessor invoker *)

(** A receiver that is there but is not an address stops the invoker at
    its assertion: nothing is retained, nothing applied. *)
Lemma partialApplyAccessor_rejects c loc accessor base s :
  baseAccepted base = false ->
  partialApplyAccessor c loc accessor base s =
    (Abort (AssertionFailed "base of getter/setter component must be invalid or lvalue"), s).
Proof.
  unfold baseAccepted. intros H. unfold partialApplyAccessor, bind, assert.
  by rewrite H.
Qed.

(** C2, amended: for a receiver that is absent or of address type the
    invoker retains the accessor first, applies it to a present receiver
    to give a tracked first intermediate (the accessor itself when there
    is no receiver), applies that to a present index to give a tracked
    second intermediate (the first one when there is no index), and
    returns the second. *)
Theorem partialApplyAccessor_contract c loc accessor base s :
  baseAccepted base = true ->
  InvokerContract resultType c loc accessor base s.
Proof.
  intros Hbase. destruct s as [b cl ow], c as [g st sub].
  unfold InvokerContract.
  destruct base as [[d t]|], sub as [sv|]; try destruct t; try discriminate Hbase.
  - eexists (mkManaged _ (Some (length cl))), _, _. run.
    split; [reflexivity|]. split; [reflexivity|]. split; split.
    + exists (length cl). split; [done|]. cbn. by rewrite lookup_before_last.
    + done.
    + exists (S (length cl)). split; [done|]. cbn. by rewrite lookup_second_last.
    + done.
  - eexists (mkManaged _ (Some (length cl))), _, _. run.
    split; [reflexivity|]. split; [reflexivity|]. split; [split|done].
    + exists (length cl). split; [done|]. cbn. by rewrite lookup_last.
    + done.
  - eexists (mkManaged _ None), _, _. run.
    split; [reflexivity|]. split; [reflexivity|]. split; [done|split].
    + exists (length cl). split; [done|]. cbn. by rewrite lookup_last.
    + done.
  - eexists (mkManaged _ None), _, _. run. done.
Qed.

(** *** Load and store on a logical component *)

(** C3, amended: with a receiver that is absent or of address type, store
    applies the setter once, to the receiver if present, then the index if
    present, then the new value, in that order and with no other
    application; load applies the getter once, to the receiver if present,
    then the index if present, then to no further argument, and the value
    of that call is the load result. *)
Theorem logical_store_load_contract c loc rvalue base preserve s :
  baseAccepted base = true ->
  StoreContract resultType c loc rvalue base preserve s /\
  LoadContract resultType c loc base preserve s.
Proof.
  intros Hbase. destruct s as [b cl ow], c as [g st sub].
  unfold StoreContract, LoadContract.
  destruct base as [[d t]|], sub as [sv|]; try destruct t; try discriminate Hbase;
    (split; [eexists|eexists _, _]; run; done).
Qed.

(** C4: when store or load on a logical component completes, the ownership
    log has grown by exactly one acquire/release pair for each application
    step of the invoker (the receiver's and the index's): the value the
    step defined is tracked on a fresh cleanup, and given up when the next
    application takes it as its callee, so that its cleanup is dead when
    the call returns.  Load adds the acquisition of its result, which it
    hands to its caller.  When the call aborts, no step was performed and
    the state is untouched. *)
Theorem ownership_pairs c loc rvalue base preserve s :
  match storeRValue c loc rvalue base preserve s with
  | (Done _, s') =>
      exists steps : list (CleanupsDepth * Value),
        length steps = length (accessorSteps c base) /\
        steps.*1 = seq (length (Cleanups s)) (length (accessorSteps c base)) /\
        steps.*2 = chainValues resultType loc (S (length (B s))) (setter c)
                     (accessorSteps c base) /\
        ownership s' = ownership s ++ flat_map pairOf steps /\
        Cleanups s' = Cleanups s ++ map released steps /\
        B s' = B s ++ RetainInst loc (setter c)
                      :: applyChain resultType loc (S (length (B s))) (setter c)
                           (accessorSteps c base ++ [[rvalue]])
  | (Abort _, s') => s' = s
  end /\
  match loadAndMaterialize c loc base preserve s with
  | (Done result, s') =>
      exists steps : list (CleanupsDepth * Value),
        length steps = length (accessorSteps c base) /\
        steps.*1 = seq (length (Cleanups s)) (length (accessorSteps c base)) /\
        steps.*2 = chainValues resultType loc (S (length (B s))) (getter c)
                     (accessorSteps c base) /\
        getCleanup result = Some (length (Cleanups s) + length steps) /\
        ownership s' = ownership s ++ flat_map pairOf steps
                         ++ [Acquire (length (Cleanups s) + length steps) (getValue result)] /\
        Cleanups s' = Cleanups s ++ map released steps
                        ++ [mkCleanup (getValue result) Active] /\
        B s' = B s ++ RetainInst loc (getter c)
                      :: applyChain resultType loc (S (length (B s))) (getter c)
                           (accessorSteps c base ++ [[]])
  | (Abort _, s') => s' = s
  end.
Proof.
  destruct s as [b cl ow], c as [g st sub].
  destruct (baseAccepted base) eqn:Hbase.
  - destruct base as [[d t]|], sub as [sv|]; try destruct t; try discriminate Hbase;
      unfold accessorSteps; (split; run).
    all: first
      [ eexists [(_, _); (_, _)]; unfold applied; cbn;
        replace (length cl + 2) with (S (S (length cl))) by lia;
        by repeat split
      | eexists [(_, _)]; unfold applied; cbn; rewrite ?Nat.add_1_r;
        by repeat split
      | exists []; cbn; rewrite ?Nat.add_0_r, ?app_nil_r;
        by repeat split ].
  - unfold storeRValue, loadAndMaterialize, bind.
    rewrite !partialApplyAccessor_rejects by done. done.
Qed.

(** *** The path evaluator *)

Local Abbreviation resolve := (resolve resultType).
Local Abbreviation resolvePath := (resolvePath resultType).
Local Abbreviation loadFinal := (loadFinal resultType).
Local Abbreviation storeFinal := (storeFinal resultType).
Local Abbreviation loadFrom := (loadFrom resultType).
Local Abbreviation storeFrom := (storeFrom resultType).
Local Abbreviation load := (load resultType).
Local Abbreviation store := (store resultType).

(** Resolving a path that ends in [c] resolves what is before [c] and
    gives the result to [c] as its base. *)
Lemma resolvePath_snoc preserve loc lv (c : PathComponent) base s :
  resolvePath preserve loc (lv ++ [c]) base s =
    bind (resolvePath preserve loc lv base) (resolve preserve loc c) s.
Proof.
  revert base s. induction lv as [|a lv IH]; intros base s; cbn.
  - unfold bind. cbn. destruct (resolve preserve loc c base s) as [[?|?] ?]; reflexivity.
  - unfold bind. destruct (resolve preserve loc a base s) as [[r|f] s1]; [|reflexivity].
    exact (IH r s1).
Qed.

(** Storing through a path resolves what is before a component and goes
    on from that component with the result as its base. *)
Lemma storeFrom_app preserve loc (pre : LValue) (c : PathComponent)
    (post : LValue) value base s :
  storeFrom preserve loc (pre ++ c :: post) value base s =
    bind (resolvePath preserve loc pre base)
         (storeFrom preserve loc (c :: post) value) s.
Proof.
  revert base s. induction pre as [|a pre IH]; intros base s; [done|].
  change (storeFrom preserve loc ((a :: pre) ++ c :: post) value base s)
    with (match pre ++ c :: post with
          | [] => storeFinal preserve loc a value base
          | _ :: _ => bind (resolve preserve loc a base)
                           (storeFrom preserve loc (pre ++ c :: post) value)
          end s).
  destruct (pre ++ c :: post) as [|x rest] eqn:E; [by destruct pre|].
  rewrite <- E in *.
  cbn. unfold bind.
  destruct (resolve preserve loc a base s) as [[r|f] s1]; [|reflexivity].
  exact (IH r s1).
Qed.

Lemma loadFrom_app preserve loc (pre : LValue) (c : PathComponent)
    (post : LValue) base s :
  loadFrom preserve loc (pre ++ c :: post) base s =
    bind (resolvePath preserve loc pre base)
         (loadFrom preserve loc (c :: post)) s.
Proof.
  revert base s. induction pre as [|a pre IH]; intros base s; [done|].
  change (loadFrom preserve loc ((a :: pre) ++ c :: post) base s)
    with (match pre ++ c :: post with
          | [] => loadFinal preserve loc a base
          | _ :: _ => bind (resolve preserve loc a base)
                           (loadFrom preserve loc (pre ++ c :: post))
          end s).
  destruct (pre ++ c :: post) as [|x rest] eqn:E; [by destruct pre|].
  rewrite <- E in *.
  cbn. unfold bind.
  destruct (resolve preserve loc a base s) as [[r|f] s1]; [|reflexivity].
  exact (IH r s1).
Qed.

(** *** The builder *)

(** Forwarding always succeeds, gives the wrapped value and emits
    nothing. *)
Lemma forward_done (mv : ManagedValue) s :
  exists s', forward mv s = (Done (getValue mv), s') /\ B s' = B s.
Proof. unfold forward. destruct (getCleanup mv); eexists; by run. Qed.

(** The getter/setter pair of a declaration, pushed on a path: what the
    two decl-ref and member-ref cases share. *)
Lemma push_accessors e (d : ValueDecl) lv s get set s1 s2 :
  emitConstantRef e (mkSILConstant d Getter) s = (get, s1) ->
  emitConstantRef e (mkSILConstant d Setter) s1 = (set, s2) ->
  exists s3, B s3 = B s2 /\
    (get <- lift (emitConstantRef e (mkSILConstant d Getter)) ;;
     set <- lift (emitConstantRef e (mkSILConstant d Setter)) ;;
     g <- forward get ;;
     st <- forward set ;;
     addGetterSetterComponent lv g st) s =
    (if present (getValue get) && present (getValue set)
     then Done (lv ++ [Logical (mkGetterSetter (getValue get) (getValue set) None)])
     else Abort accessorFailure, s3).
Proof.
  intros Hget Hset. unfold bind at 1, lift at 1. rewrite Hget.
  unfold bind at 1, lift at 1. rewrite Hset.
  destruct (forward_done get s2) as (s2' & Hf & HB). unfold bind at 1. rewrite Hf.
  destruct (forward_done set s2') as (s3 & Hf' & HB'). unfold bind at 1. rewrite Hf'.
  exists s3. split; [congruence|].
  unfold addGetterSetterComponent, newGetterSetterComponent, bind, assert.
  by destruct (present (getValue get)), (present (getValue set)).
Qed.

(** C5: a member access first lowers its base; if that aborts, so does
    the member access.  Otherwise, when the type descriptor of the base's
    rvalue type has a fragile element of the member's name, the path of
    the base is extended by a fragile-element component carrying that
    element (its index and type), and nothing is emitted; when it has
    none, the getter and the setter of the member are resolved and the
    path is extended by a logical component holding the two, with no
    index (the constructor's assertion stops the lowering when one of them
    did not resolve to a value).  The evaluator hands that component, as
    its receiver, the value the base's path resolved to. *)
Theorem visitMemberRefExpr_appends ty (base : Expr) (decl : VarDecl) s :
  let e := MemberRefExpr ty base decl in
  let ti := getTypeInfo (getRValueType (getType base)) in
  match visit base s with
  | (Abort f, s1) => visit e s = (Abort f, s1)
  | (Done lv, s1) =>
      if hasFragileElement ti (getName decl)
      then
        visit e s =
          (Done (lv ++ [Physical (FragileElementComponent
                                    (getFragileElement ti (getName decl)))]), s1)
      else
        let (get, s2) := emitConstantRef e (mkSILConstant (VarDeclOf decl) Getter) s1 in
        let (set, s3) := emitConstantRef e (mkSILConstant (VarDeclOf decl) Setter) s2 in
        let l := mkGetterSetter (getValue get) (getValue set) None in
        (exists s4, B s4 = B s3 /\
           visit e s =
             (if present (getValue get) && present (getValue set)
              then Done (lv ++ [Logical l])
              else Abort accessorFailure, s4)) /\
        forall preserve loc value s0,
          store preserve loc (lv ++ [Logical l]) value s0 =
            (receiver <- resolvePath preserve loc lv None ;;
             storeRValue l loc value receiver preserve) s0 /\
          load preserve loc (lv ++ [Logical l]) s0 =
            (receiver <- resolvePath preserve loc lv None ;;
             loadAndMaterialize l loc receiver preserve) s0
  end.
Proof.
  intros e ti.
  change (visit e s) with
    (visitMemberRefExpr emitConstantRef getTypeInfo visit e base decl s).
  unfold visitMemberRefExpr. fold ti.
  destruct (visit base s) as [[lv|f] s1] eqn:Hbase;
    [rewrite (bind_done _ _ _ _ _ Hbase) | by rewrite (bind_abort _ _ _ _ _ Hbase)].
  destruct (hasFragileElement ti (getName decl)); [reflexivity|].
  destruct (emitConstantRef e _ s1) as [get s2] eqn:Hget.
  destruct (emitConstantRef e _ s2) as [set s3] eqn:Hset.
  split.
  - destruct (push_accessors e (VarDeclOf decl) lv s1 get set s2 s3 Hget Hset)
      as (s4 & HB & ->).
    by exists s4.
  - intros preserve loc value s0. split.
    + apply storeFrom_app.
    + apply loadFrom_app.
Qed.

(** C8: a reference to a computed property with no base is lowered to a
    path of one logical component holding the getter and the setter
    resolved for that property, with no index (the constructor's assertion
    stops the lowering when one of them did not resolve to a value).
    Load and store hand the one component of that path the absent base;
    storing then retains the setter and applies it to the new value only,
    and loading retains the getter and applies it to no argument only, the
    value of that application being the result: the accessor is never
    applied to a receiver, and no intermediate is tracked. *)
Theorem bare_property_reference ty name s :
  let var := mkVarDecl name true in
  let e := DeclRefExpr ty (VarDeclOf var) in
  let (get, s1) := emitConstantRef e (mkSILConstant (VarDeclOf var) Getter) s in
  let (set, s2) := emitConstantRef e (mkSILConstant (VarDeclOf var) Setter) s1 in
  let l := mkGetterSetter (getValue get) (getValue set) None in
  (exists s3, B s3 = B s2 /\
     visit e s =
       (if present (getValue get) && present (getValue set)
        then Done [Logical l]
        else Abort accessorFailure, s3)) /\
  forall preserve loc value s0,
    (store preserve loc [Logical l] value s0 =
       storeRValue l loc value None preserve s0 /\
     load preserve loc [Logical l] s0 =
       loadAndMaterialize l loc None preserve s0) /\
    (exists s0',
       storeRValue l loc value None preserve s0 = (Done tt, s0') /\
       B s0' = B s0 ++ [RetainInst loc (getValue set);
                        ApplyInst loc (getValue set) [value]] /\
       ownership s0' = ownership s0) /\
    (exists result s0',
       loadAndMaterialize l loc None preserve s0 = (Done result, s0') /\
       B s0' = B s0 ++ [RetainInst loc (getValue get);
                        ApplyInst loc (getValue get) []] /\
       getValue result =
         applied resultType loc (S (length (B s0))) (getValue get) [] /\
       ownership s0' =
         ownership s0 ++ [Acquire (length (Cleanups s0)) (getValue result)]).
Proof.
  intros var e.
  destruct (emitConstantRef e _ s) as [get s1] eqn:Hget.
  destruct (emitConstantRef e _ s1) as [set s2] eqn:Hset.
  split.
  - destruct (push_accessors e (VarDeclOf var) [] s get set s1 s2 Hget Hset)
      as (s3 & HB & Hv).
    by exists s3.
  - intros preserve loc value [b cl ow]. split; [by split|]. split.
    + eexists. by run.
    + eexists _, _. by run.
Qed.

(** *** What every built path looks like *)

Lemma wellFormedPath_snoc lv (c : PathComponent) :
  wellFormedPath lv -> isLater c -> wellFormedPath (lv ++ [c]).
Proof.
  destruct lv as [|first rest]; [done|]. intros [Hfirst Hrest] Hc.
  split; [done|]. apply Forall_app. by split; [|apply Forall_singleton].
Qed.

(** The invariant of the visitor: a path it returns is well formed and its
    logical components hold both accessors; if it aborts in the
    constructor of a logical component, then the reference emitter gave
    an absent value. *)
Lemma visit_invariant e :
  forall s,
    match visit e s with
    | (Done lv, _) => wellFormedPath lv /\ Forall hasBothAccessors lv
    | (Abort f, _) =>
        f = accessorFailure ->
        exists e' k s', present (getValue (emitConstantRef e' k s').1) = false
    end.
Proof.
  assert (Hpush : forall e (d : ValueDecl) lv s,
    wellFormedPath lv \/ lv = [] -> Forall hasBothAccessors lv ->
    match (get <- lift (emitConstantRef e (mkSILConstant d Getter)) ;;
           set <- lift (emitConstantRef e (mkSILConstant d Setter)) ;;
           g <- forward get ;;
           st <- forward set ;;
           addGetterSetterComponent lv g st) s with
    | (Done lv', _) => wellFormedPath lv' /\ Forall hasBothAccessors lv'
    | (Abort f, _) =>
        f = accessorFailure ->
        exists e' k s', present (getValue (emitConstantRef e' k s').1) = false
    end).
  { intros e' d lv s Hwf Hall.
    destruct (emitConstantRef e' (mkSILConstant d Getter) s) as [get s1] eqn:Hget.
    destruct (emitConstantRef e' (mkSILConstant d Setter) s1) as [set s2] eqn:Hset.
    destruct (push_accessors e' d lv s get set s1 s2 Hget Hset) as (s3 & _ & ->).
    destruct (present (getValue get)) eqn:Hg; [destruct (present (getValue set)) eqn:Hs|];
      cbn.
    - split.
      + destruct Hwf as [Hwf| ->]; [by apply wellFormedPath_snoc|done].
      + apply Forall_app. split; [done|]. by apply Forall_singleton.
    - intros _. exists e', (mkSILConstant d Setter), s1. by rewrite Hset.
    - intros _. exists e', (mkSILConstant d Getter), s. by rewrite Hget. }
  induction e as [ty decl|ty base IH decl|ty base IH n|ty sub IH|ty sub IH|ty sub IH|ty k];
    intros s.
  - change (visit (DeclRefExpr ty decl) s) with
      (visitDeclRefExpr emitConstantRef emitReferenceToDecl (DeclRefExpr ty decl) decl s).
    unfold visitDeclRefExpr.
    assert (Hphysical :
      match (ref <- lift (emitReferenceToDecl (DeclRefExpr ty decl) decl) ;;
             _ <- assert (isAddress (getUnmanagedValue ref))
                    "physical lvalue decl ref must evaluate to an address" ;;
             addVarComponent [] (getUnmanagedValue ref)) s with
      | (Done lv, _) => wellFormedPath lv /\ Forall hasBothAccessors lv
      | (Abort f, _) =>
          f = accessorFailure ->
          exists e' k s', present (getValue (emitConstantRef e' k s').1) = false
      end).
    { unfold bind at 1, lift.
      destruct (emitReferenceToDecl (DeclRefExpr ty decl) decl s) as [ref s1].
      unfold bind, assert, addVarComponent, newVarComponent, bind, assert.
      destruct (isAddress (getUnmanagedValue ref)) eqn:Ha; cbn.
      - rewrite Ha. cbn. split; [by split|]. by apply Forall_singleton.
      - discriminate. }
    destruct decl as [var|n]; [destruct (isProperty var)|]; try exact Hphysical.
    apply Hpush; [by right|done].
  - change (visit (MemberRefExpr ty base decl) s) with
      (visitMemberRefExpr emitConstantRef getTypeInfo visit
         (MemberRefExpr ty base decl) base decl s).
    unfold visitMemberRefExpr. specialize (IH s).
    destruct (visit base s) as [[lv|f] s1] eqn:Hbase;
      [rewrite (bind_done _ _ _ _ _ Hbase) | by rewrite (bind_abort _ _ _ _ _ Hbase)].
    destruct IH as [Hwf Hall].
    destruct (hasFragileElement _ _).
    + cbn. split; [by apply wellFormedPath_snoc|].
      apply Forall_app. split; [done|]. by apply Forall_singleton.
    + apply Hpush; [by left|done].
  - change (visit (TupleElementExpr ty base n) s) with
      (visitTupleElementExpr visit (TupleElementExpr ty base n) base n s).
    unfold visitTupleElementExpr. specialize (IH s).
    destruct (visit base s) as [[lv|f] s1] eqn:Hbase;
      [rewrite (bind_done _ _ _ _ _ Hbase) | by rewrite (bind_abort _ _ _ _ _ Hbase)].
    destruct IH as [Hwf Hall]. cbn. split; [by apply wellFormedPath_snoc|].
    apply Forall_app. split; [done|]. by apply Forall_singleton.
  - exact (IH s).
  - exact (IH s).
  - change (visit (RequalifyExpr ty sub) s) with
      (visitRequalifyExpr visit (RequalifyExpr ty sub) sub s).
    unfold visitRequalifyExpr, bind, assert. cbn.
    destruct (isLValueType ty); cbn; [exact (IH s)|discriminate].
  - cbn. discriminate.
Qed.

(** C9: the constructor of a logical component fails its assertion, and
    builds nothing, exactly when the getter or the setter is absent; so
    every logical component of a path the visitor returns holds both; and
    when the reference emitter always gives a present value, as it does
    when the phases before it are right, the visitor never fails that
    assertion. *)
Theorem getter_setter_required :
  (forall g st sub s,
     newGetterSetterComponent g st sub s =
       if present g && present st
       then (Done (mkGetterSetter g st sub), s)
       else (Abort accessorFailure, s)) /\
  (forall e s lv s', visit e s = (Done lv, s') -> Forall hasBothAccessors lv) /\
  ((forall e k s, present (getValue (emitConstantRef e k s).1) = true) ->
   forall e s, (visit e s).1 <> Abort accessorFailure).
Proof.
  split; [|split].
  - intros g st sub s. unfold newGetterSetterComponent, bind, assert.
    by destruct (present g), (present st).
  - intros e s lv s' H. pose proof (visit_invariant e s) as Hinv.
    rewrite H in Hinv. apply Hinv.
  - intros Hup e s Hfail. pose proof (visit_invariant e s) as Hinv.
    destruct (visit e s) as [[lv|f] s']; [discriminate Hfail|].
    cbn in Hfail. injection Hfail as ->.
    destruct (Hinv eq_refl) as (e' & k & s0 & Habsent).
    by rewrite Hup in Habsent.
Qed.

(** C1: a path the visitor returns starts with a root (a variable's
    address, or a logical component) and goes on with fragile-element and
    logical components only.  Load and store give the first component the
    absent base, and every later one the value its predecessors resolved
    to.  A variable component returns its address when the base is absent
    and fails an assertion when it is not; a fragile-element component
    resolves only on a base that is present and an address; a logical
    component loads and stores only on a base that is absent or an
    address. *)
Theorem path_chaining e s lv s' :
  visit e s = (Done lv, s') ->
  wellFormedPath lv /\
  (forall preserve loc value s0,
     load preserve loc lv s0 = loadFrom preserve loc lv None s0 /\
     store preserve loc lv value s0 = storeFrom preserve loc lv value None s0) /\
  (forall (pre : LValue) (c : PathComponent) (post : LValue),
     lv = pre ++ c :: post ->
     forall preserve loc value s0,
       load preserve loc lv s0 =
         (base <- resolvePath preserve loc pre None ;;
          loadFrom preserve loc (c :: post) base) s0 /\
       store preserve loc lv value s0 =
         (base <- resolvePath preserve loc pre None ;;
          storeFrom preserve loc (c :: post) value base) s0) /\
  (forall (pre : LValue) (c : PathComponent) preserve loc base s0,
     resolvePath preserve loc (pre ++ [c]) base s0 =
       (r <- resolvePath preserve loc pre base ;; resolve preserve loc c r) s0) /\
  (forall address loc base s0,
     offset (VarComponent address) loc base s0 =
       if present base
       then (Abort (AssertionFailed "var component must be root of lvalue path"), s0)
       else (Done address, s0)) /\
  (forall element loc base s0 r s1,
     offset (FragileElementComponent element) loc base s0 = (Done r, s1) ->
     present base = true /\ isAddress base = true) /\
  (forall c loc rvalue base preserve s0,
     (forall r s1, loadAndMaterialize c loc base preserve s0 = (Done r, s1) ->
                   baseAccepted base = true) /\
     (forall r s1, storeRValue c loc rvalue base preserve s0 = (Done r, s1) ->
                   baseAccepted base = true)).
Proof.
  intros Hvisit. split; [|split; [|split; [|split; [|split; [|split]]]]].
  - pose proof (visit_invariant e s) as Hinv. rewrite Hvisit in Hinv. apply Hinv.
  - done.
  - intros pre c post -> preserve loc value s0. split.
    + apply loadFrom_app.
    + apply storeFrom_app.
  - intros. apply resolvePath_snoc.
  - intros address loc [b|] s0; reflexivity.
  - intros element loc [[d t]|] s0 r s1; [|discriminate].
    unfold offset, bind, assert. cbn. destruct (isLValueType t) eqn:Ht; [done|discriminate].
  - intros c loc rvalue base preserve s0.
    destruct (baseAccepted base) eqn:Hb; [done|].
    unfold storeRValue, loadAndMaterialize, bind.
    rewrite !partialApplyAccessor_rejects by done. split; discriminate.
Qed.

End Facts.

(** * The sample program, lowered *)

(** [origin.x]: the variable's address, then the stored field. *)
Example origin_x_path :
  Sample.build Sample.origin_x Sample.start =
    (Done [Physical (VarComponent Sample.origin_address);
           Physical (FragileElementComponent (mkFragileElement Sample.Int 0))],
     mkGen [GlobalAddrInst (VarDeclOf (mkVarDecl "origin" false))] [] []).
Proof. reflexivity. Qed.

(** Storing through [origin.x] offsets the address and writes there. *)
Example origin_x_store :
  B (store Sample.resultType PreserveValues 7
       [Physical (VarComponent Sample.origin_address);
        Physical (FragileElementComponent (mkFragileElement Sample.Int 0))]
       Sample.int_value Sample.start).2 =
    [ElementAddrInst 7 Sample.origin_address 0 (LValueType Sample.Int 0%N);
     StoreInst 7 Sample.int_value (Some (mkValue 0 (LValueType Sample.Int 0%N)))].
Proof. reflexivity. Qed.

(** Storing through [origin.norm] retains the setter, applies it to the
    address of [origin] and the result to the new value. *)
Example origin_norm_store :
  B (store Sample.resultType PreserveValues 7
       [Physical (VarComponent Sample.origin_address); Logical Sample.norm]
       Sample.int_value Sample.start).2 =
    [RetainInst 7 Sample.norm_setter;
     ApplyInst 7 Sample.norm_setter [Sample.origin_address];
     ApplyInst 7 (Some (mkValue 1 (FunctionType Sample.Int (TupleType []))))
       [Sample.int_value]].
Proof. reflexivity. Qed.

(** An expression kind the visitor has no case for. *)
Example other_expr_unreachable :
  Sample.build (OtherExpr Sample.Int "CallExpr") Sample.start =
    (Abort (Unreachable "unimplemented lvalue expr"), Sample.start).
Proof. reflexivity. Qed.

(** A reference to a declaration that does not evaluate to an address. *)
Example function_reference_rejected :
  (Sample.build (DeclRefExpr Sample.Point (OtherValueDecl "make")) Sample.start).1 =
    Abort (AssertionFailed "physical lvalue decl ref must evaluate to an address").
Proof. reflexivity. Qed.

(** * The theorems at work on the sample program *)

(** The invoker on [origin]'s address and an index: both steps run. *)
Lemma partialApplyAccessor_contract_witness :
  InvokerContract Sample.resultType Sample.indexed 7 Sample.norm_setter
    Sample.origin_address Sample.start.
Proof. apply partialApplyAccessor_contract. reflexivity. Defined.

(** A receiver that is a [Point], not the address of one: the invoker
    stops at its assertion with nothing retained, so it does not do what
    its description says of every receiver. *)
Lemma invoker_contract_counterexample :
  partialApplyAccessor Sample.resultType Sample.norm 7 Sample.norm_setter
      Sample.point_value Sample.start =
    (Abort (AssertionFailed "base of getter/setter component must be invalid or lvalue"),
     Sample.start) /\
  ~ InvokerContract Sample.resultType Sample.norm 7 Sample.norm_setter
      Sample.point_value Sample.start.
Proof.
  split; [reflexivity|].
  intros (i1 & i2 & s' & H & _). discriminate H.
Qed.

Lemma logical_store_load_contract_witness :
  StoreContract Sample.resultType Sample.indexed 7 Sample.int_value
    Sample.origin_address PreserveValues Sample.start /\
  LoadContract Sample.resultType Sample.indexed 7
    Sample.origin_address PreserveValues Sample.start.
Proof. apply logical_store_load_contract. reflexivity. Defined.

(** With a [Point] for receiver, store applies the setter to nothing and
    load has no result. *)
Lemma store_load_contract_counterexample :
  storeRValue Sample.resultType Sample.norm 7 Sample.int_value
      Sample.point_value PreserveValues Sample.start =
    (Abort (AssertionFailed "base of getter/setter component must be invalid or lvalue"),
     Sample.start) /\
  loadAndMaterialize Sample.resultType Sample.norm 7
      Sample.point_value PreserveValues Sample.start =
    (Abort (AssertionFailed "base of getter/setter component must be invalid or lvalue"),
     Sample.start) /\
  ~ StoreContract Sample.resultType Sample.norm 7 Sample.int_value
      Sample.point_value PreserveValues Sample.start /\
  ~ LoadContract Sample.resultType Sample.norm 7
      Sample.point_value PreserveValues Sample.start.
Proof.
  split; [reflexivity|]. split; [reflexivity|]. split.
  - intros (s' & H & _). discriminate H.
  - intros (r & s' & H & _). discriminate H.
Qed.

(** [origin.norm]: a variable, then a computed property. *)
Lemma path_chaining_witness :
  exists lv s',
    Sample.build Sample.origin_norm Sample.start = (Done lv, s') /\
    wellFormedPath lv.
Proof.
  eexists _, _. split; [vm_compute; reflexivity|].
  eapply (path_chaining Sample.resultType Sample.emitConstantRef
            Sample.emitReferenceToDecl Sample.getTypeInfo
            Sample.origin_norm Sample.start).
  vm_compute; reflexivity.
Defined.

Lemma visitMemberRefExpr_appends_witness :
  exists s4,
    Sample.build Sample.origin_norm Sample.start =
      (Done [Physical (VarComponent Sample.origin_address); Logical Sample.norm], s4).
Proof.
  pose proof (visitMemberRefExpr_appends Sample.resultType Sample.emitConstantRef
                Sample.emitReferenceToDecl Sample.getTypeInfo
                (LValueType Sample.Int 0%N) Sample.origin (mkVarDecl "norm" true)
                Sample.start) as H.
  cbn in H. destruct H as [(s4 & _ & Hv) _].
  exists s4. exact Hv.
Defined.

(** [shared], a computed global. *)
Lemma bare_property_reference_witness :
  exists s3,
    Sample.build Sample.shared Sample.start =
      (Done [Logical Sample.shared_property], s3).
Proof.
  pose proof (bare_property_reference Sample.resultType Sample.emitConstantRef
                Sample.emitReferenceToDecl Sample.getTypeInfo
                (LValueType Sample.Point 0%N) "shared" Sample.start) as H.
  cbn in H. destruct H as [(s3 & _ & Hv) _].
  exists s3. exact Hv.
Defined.

(** The sample's reference emitter always gives a present value, and
    [shared.norm] is lowered without failing the constructor. *)
Lemma getter_setter_required_witness :
  (forall e k s, present (getValue (Sample.emitConstantRef e k s).1) = true) /\
  (Sample.build Sample.shared_norm Sample.start).1 <> Abort accessorFailure.
Proof.
  assert (Hup : forall e k s,
            present (getValue (Sample.emitConstantRef e k s).1) = true)
    by reflexivity.
  split; [exact Hup|].
  apply (getter_setter_required Sample.emitConstantRef Sample.emitReferenceToDecl
           Sample.getTypeInfo).
  exact Hup.
Defined.

(** * Further properties of the visitor and the components *)

Section Further.

Variable resultType : SILInstruction -> Ty.
Variable emitConstantRef :
  Expr -> SILConstant -> SILGenFunction -> ManagedValue * SILGenFunction.
Variable emitReferenceToDecl :
  Expr -> ValueDecl -> SILGenFunction -> ManagedValue * SILGenFunction.
Variable getTypeInfo : Ty -> TypeInfo.

Local Abbreviation visit := (visit emitConstantRef emitReferenceToDecl getTypeInfo).
Local Abbreviation partialApplyAccessor := (partialApplyAccessor resultType).

Implicit Types (s : SILGenFunction) (c : GetterSetterComponent)
  (base accessor : Value) (loc : SILLocation) (e : Expr) (lv : LValue).

(** The three ways into the cases of the visitor. *)
Lemma visit_member ty (b : Expr) (decl : VarDecl) s :
  visit (MemberRefExpr ty b decl) s =
    visitMemberRefExpr emitConstantRef getTypeInfo visit (MemberRefExpr ty b decl) b decl s.
Proof. reflexivity. Qed.

Lemma visit_tuple ty (b : Expr) n s :
  visit (TupleElementExpr ty b n) s =
    visitTupleElementExpr visit (TupleElementExpr ty b n) b n s.
Proof. reflexivity. Qed.

Lemma visit_requalify ty (sub : Expr) s :
  visit (RequalifyExpr ty sub) s =
    if isLValueType ty then visit sub s else (Abort badRequalify, s).
Proof.
  change (visit (RequalifyExpr ty sub) s) with
    (visitRequalifyExpr visit (RequalifyExpr ty sub) sub s).
  unfold visitRequalifyExpr, bind, assert. cbn. by destruct (isLValueType ty).
Qed.

(** The reference to a stored declaration. *)
Lemma visit_stored ty (decl : ValueDecl) s ref s1 :
  isPropertyDecl decl = false ->
  emitReferenceToDecl (DeclRefExpr ty decl) decl s = (ref, s1) ->
  visit (DeclRefExpr ty decl) s =
    if isAddress (getValue ref)
    then (Done [Physical (VarComponent (getValue ref))], s1)
    else (Abort notAnAddress, s1).
Proof.
  intros Hstored Href.
  change (visit (DeclRefExpr ty decl) s) with
    (visitDeclRefExpr emitConstantRef emitReferenceToDecl (DeclRefExpr ty decl) decl s).
  unfold visitDeclRefExpr.
  assert (Hphysical :
    (ref <- lift (emitReferenceToDecl (DeclRefExpr ty decl) decl) ;;
     _ <- assert (isAddress (getUnmanagedValue ref))
            "physical lvalue decl ref must evaluate to an address" ;;
     addVarComponent [] (getUnmanagedValue ref)) s =
    if isAddress (getValue ref)
    then (Done [Physical (VarComponent (getValue ref))], s1)
    else (Abort notAnAddress, s1)).
  { unfold bind at 1, lift. rewrite Href.
    unfold bind, assert, addVarComponent, newVarComponent, bind, assert, getUnmanagedValue.
    destruct (isAddress (getValue ref)) eqn:Ha; cbn; rewrite ?Ha; reflexivity. }
  destruct decl as [var|n]; [|exact Hphysical].
  cbn in Hstored. rewrite Hstored. exact Hphysical.
Qed.

(** X1: an expression whose spine ends in a kind the visitor has no case
    for, or passes a requalification to a type that is not an lvalue type,
    is rejected on the way down: the visitor aborts, on the unreachable
    case or on the requalification's assertion, in the very state it was
    started in, so before any reference is emitted. *)
Theorem rejected_before_emission e s :
  lowerable e = false ->
  exists f, visit e s = (Abort f, s) /\ (f = unimplemented \/ f = badRequalify).
Proof.
  induction e as [ty decl|ty b IH decl|ty b IH n|ty sub IH|ty sub IH|ty sub IH|ty k];
    cbn [lowerable]; intros H.
  - discriminate.
  - destruct (IH H) as (f & Hv & Hf). exists f. split; [|done].
    rewrite visit_member. unfold visitMemberRefExpr.
    by rewrite (bind_abort _ _ _ _ _ Hv).
  - destruct (IH H) as (f & Hv & Hf). exists f. split; [|done].
    rewrite visit_tuple. unfold visitTupleElementExpr.
    by rewrite (bind_abort _ _ _ _ _ Hv).
  - exact (IH H).
  - exact (IH H).
  - rewrite visit_requalify. destruct (isLValueType ty); cbn in H.
    + exact (IH H).
    + exists badRequalify. by split; [|right].
  - exists unimplemented. by split; [|left].
Qed.

(** The reference to a property. *)
Lemma visit_property ty (decl : ValueDecl) s get set s1 s2 :
  isPropertyDecl decl = true ->
  emitConstantRef (DeclRefExpr ty decl) (mkSILConstant decl Getter) s = (get, s1) ->
  emitConstantRef (DeclRefExpr ty decl) (mkSILConstant decl Setter) s1 = (set, s2) ->
  exists s3, B s3 = B s2 /\
    visit (DeclRefExpr ty decl) s =
      (if present (getValue get) && present (getValue set)
       then Done [Logical (mkGetterSetter (getValue get) (getValue set) None)]
       else Abort accessorFailure, s3).
Proof.
  intros Hprop Hget Hset. destruct decl as [var|n]; [|discriminate Hprop].
  cbn in Hprop.
  change (visit (DeclRefExpr ty (VarDeclOf var)) s) with
    (visitDeclRefExpr emitConstantRef emitReferenceToDecl
       (DeclRefExpr ty (VarDeclOf var)) (VarDeclOf var) s).
  unfold visitDeclRefExpr. rewrite Hprop.
  exact (push_accessors emitConstantRef _ (VarDeclOf var) [] s get set s1 s2 Hget Hset).
Qed.

(** What a run of the visitor ends in: a path with one component for each
    location of the spine, or one of four failures. *)
Lemma visit_outcome e :
  forall s,
    match visit e s with
    | (Done lv, _) => length lv = spineLength e
    | (Abort f, _) =>
        f = unimplemented \/ f = notAnAddress \/ f = badRequalify \/
        f = accessorFailure
    end.
Proof.
  induction e as [ty decl|ty b IH decl|ty b IH n|ty sub IH|ty sub IH|ty sub IH|ty k];
    intros s.
  - destruct (isPropertyDecl decl) eqn:Hprop.
    + destruct (emitConstantRef (DeclRefExpr ty decl) (mkSILConstant decl Getter) s)
        as [get s1] eqn:Hget.
      destruct (emitConstantRef (DeclRefExpr ty decl) (mkSILConstant decl Setter) s1)
        as [set s2] eqn:Hset.
      destruct (visit_property ty decl s get set s1 s2 Hprop Hget Hset) as (s3 & _ & ->).
      destruct (present (getValue get) && present (getValue set)); [done|].
      by do 3 right.
    + destruct (emitReferenceToDecl (DeclRefExpr ty decl) decl s) as [ref s1] eqn:Href.
      rewrite (visit_stored ty decl s ref s1 Hprop Href).
      destruct (isAddress (getValue ref)); [done|]. by right; left.
  - rewrite visit_member. unfold visitMemberRefExpr. specialize (IH s).
    destruct (visit b s) as [[lv|f] s1] eqn:Hb;
      [rewrite (bind_done _ _ _ _ _ Hb) | by rewrite (bind_abort _ _ _ _ _ Hb)].
    destruct (hasFragileElement _ _).
    + cbn. rewrite length_app. cbn. lia.
    + destruct (emitConstantRef (MemberRefExpr ty b decl)
                  (mkSILConstant (VarDeclOf decl) Getter) s1) as [get s2] eqn:Hget.
      destruct (emitConstantRef (MemberRefExpr ty b decl)
                  (mkSILConstant (VarDeclOf decl) Setter) s2) as [set s3] eqn:Hset.
      destruct (push_accessors emitConstantRef _ (VarDeclOf decl) lv s1 get set s2 s3
                  Hget Hset) as (s4 & _ & ->).
      destruct (present (getValue get) && present (getValue set)).
      * rewrite length_app. cbn. lia.
      * by do 3 right.
  - rewrite visit_tuple. unfold visitTupleElementExpr. specialize (IH s).
    destruct (visit b s) as [[lv|f] s1] eqn:Hb;
      [rewrite (bind_done _ _ _ _ _ Hb) | by rewrite (bind_abort _ _ _ _ _ Hb)].
    cbn. rewrite length_app. cbn. lia.
  - exact (IH s).
  - exact (IH s).
  - rewrite visit_requalify. destruct (isLValueType ty); [exact (IH s)|].
    by right; right; left.
  - by left.
Qed.

(** X2: when the reference emitter always gives a present value and every
    declaration referred to evaluates to an address, the visitor lowers
    every expression whose spine reaches a declaration reference through
    requalifications to lvalue types only: it returns a path. *)
Theorem lowerable_is_lowered e s :
  (forall e' k s', present (getValue (emitConstantRef e' k s').1) = true) ->
  (forall e' d s', isAddress (getValue (emitReferenceToDecl e' d s').1) = true) ->
  lowerable e = true ->
  exists lv s', visit e s = (Done lv, s').
Proof.
  intros Hrefs Haddrs. revert s.
  induction e as [ty decl|ty b IH decl|ty b IH n|ty sub IH|ty sub IH|ty sub IH|ty k];
    intros s; cbn [lowerable]; intros H.
  - destruct (isPropertyDecl decl) eqn:Hprop.
    + destruct (emitConstantRef (DeclRefExpr ty decl) (mkSILConstant decl Getter) s)
        as [get s1] eqn:Hget.
      destruct (emitConstantRef (DeclRefExpr ty decl) (mkSILConstant decl Setter) s1)
        as [set s2] eqn:Hset.
      destruct (visit_property ty decl s get set s1 s2 Hprop Hget Hset) as (s3 & _ & ->).
      pose proof (Hrefs (DeclRefExpr ty decl) (mkSILConstant decl Getter) s) as Hg.
      pose proof (Hrefs (DeclRefExpr ty decl) (mkSILConstant decl Setter) s1) as Hs.
      rewrite Hget in Hg. rewrite Hset in Hs. cbn in Hg, Hs. rewrite Hg, Hs.
      by eexists _, _.
    + destruct (emitReferenceToDecl (DeclRefExpr ty decl) decl s) as [ref s1] eqn:Href.
      rewrite (visit_stored ty decl s ref s1 Hprop Href).
      pose proof (Haddrs (DeclRefExpr ty decl) decl s) as Ha.
      rewrite Href in Ha. cbn in Ha. rewrite Ha. by eexists _, _.
  - destruct (IH s H) as (lv & s1 & Hb).
    rewrite visit_member. unfold visitMemberRefExpr. rewrite (bind_done _ _ _ _ _ Hb).
    destruct (hasFragileElement _ _); [by eexists _, _|].
    destruct (emitConstantRef (MemberRefExpr ty b decl)
                (mkSILConstant (VarDeclOf decl) Getter) s1) as [get s2] eqn:Hget.
    destruct (emitConstantRef (MemberRefExpr ty b decl)
                (mkSILConstant (VarDeclOf decl) Setter) s2) as [set s3] eqn:Hset.
    destruct (push_accessors emitConstantRef _ (VarDeclOf decl) lv s1 get set s2 s3
                Hget Hset) as (s4 & _ & ->).
    pose proof (Hrefs (MemberRefExpr ty b decl) (mkSILConstant (VarDeclOf decl) Getter) s1)
      as Hg.
    pose proof (Hrefs (MemberRefExpr ty b decl) (mkSILConstant (VarDeclOf decl) Setter) s2)
      as Hs.
    rewrite Hget in Hg. rewrite Hset in Hs. cbn in Hg, Hs. rewrite Hg, Hs.
    by eexists _, _.
  - destruct (IH s H) as (lv & s1 & Hb).
    rewrite visit_tuple. unfold visitTupleElementExpr. rewrite (bind_done _ _ _ _ _ Hb).
    by eexists _, _.
  - exact (IH s H).
  - exact (IH s H).
  - rewrite visit_requalify. destruct (isLValueType ty); [|discriminate H].
    exact (IH s H).
  - discriminate.
Qed.

(** X3: the visitor fails in four ways only: on a kind of expression it
    has no case for, on a stored declaration that does not evaluate to an
    address, on a requalification to a type that is not an lvalue type,
    and on a getter or setter that is absent.  The assertion of the
    variable component's constructor, and those of the components'
    resolution, never fail while a path is built. *)
Theorem visit_fails_in_four_ways e s f s' :
  visit e s = (Abort f, s') ->
  f = unimplemented \/ f = notAnAddress \/ f = badRequalify \/ f = accessorFailure.
Proof. intros H. pose proof (visit_outcome e s) as Hout. by rewrite H in Hout. Qed.

(** X4: a path the visitor returns has exactly one component for each
    declaration reference, member access and tuple element of the spine;
    parentheses, address-of markers and requalifications add none. *)
Theorem path_length_is_spine_length e s lv s' :
  visit e s = (Done lv, s') -> length lv = spineLength e.
Proof. intros H. pose proof (visit_outcome e s) as Hout. by rewrite H in Hout. Qed.

(** *** Physical paths *)

(** One fragile element on an address. *)
Lemma offset_element loc (el : FragileElement) d obj quals s :
  offset (FragileElementComponent el) loc (Some (mkValue d (LValueType obj quals))) s =
    (Done (Some (mkValue (length (B s)) (LValueType (elementType el) quals))),
     mkGen (B s ++ [ElementAddrInst loc (Some (mkValue d (LValueType obj quals)))
                      (elementIndex el) (LValueType (elementType el) quals)])
           (Cleanups s) (ownership s)).
Proof. reflexivity. Qed.

(** A run of fragile elements on an address. *)
Lemma offsetChain_elements loc (els : list FragileElement) :
  forall d obj quals s,
    let base := Some (mkValue d (LValueType obj quals)) in
    offsetChain loc (map FragileElementComponent els) base s =
      (Done (elementAddress (length (B s)) base quals els),
       mkGen (B s ++ elementAddrs loc (length (B s)) base quals els)
             (Cleanups s) (ownership s)).
Proof.
  induction els as [|el els IH]; intros d obj quals s.
  - destruct s. cbn. by rewrite app_nil_r.
  - cbn [map offsetChain elementAddrs elementAddress]. unfold bind.
    rewrite offset_element. cbn zeta in IH. rewrite IH. cbn [B Cleanups ownership].
    rewrite length_app, Nat.add_1_r, <- app_assoc. reflexivity.
Qed.

(** The address a run of fragile elements ends in is an address, with the
    qualifiers it started from. *)
Lemma elementAddress_type (els : list FragileElement) :
  forall n d obj quals,
    exists d' obj',
      elementAddress n (Some (mkValue d (LValueType obj quals))) quals els =
        Some (mkValue d' (LValueType obj' quals)) /\
      obj' = default obj (elementType <$> last els).
Proof.
  induction els as [|el els IH]; intros n d obj quals; cbn.
  - by eexists _, _.
  - destruct (IH (S n) n (elementType el) quals) as (d' & obj' & -> & ->).
    eexists _, _. split; [reflexivity|]. rewrite last_cons.
    destruct (last els); reflexivity.
Qed.

Lemma elementAddrs_length loc (els : list FragileElement) :
  forall n base quals, length (elementAddrs loc n base quals els) = length els.
Proof. induction els as [|el els IH]; intros; cbn; [done|]. by rewrite IH. Qed.

(** X5: a root variable component holding an address, followed by any
    run of fragile elements, resolves from the absent base without
    failing: it emits one element-address instruction for each element,
    each on the address the one before defined, touches no cleanup, and
    ends in an address that has the type of the last element and the
    qualifiers of the root's type. *)
Theorem physical_path_resolves loc d obj quals (els : list FragileElement) s :
  let root := Some (mkValue d (LValueType obj quals)) in
  let result := elementAddress (length (B s)) root quals els in
  offsetChain loc (VarComponent root :: map FragileElementComponent els) None s =
    (Done result,
     mkGen (B s ++ elementAddrs loc (length (B s)) root quals els)
           (Cleanups s) (ownership s)) /\
  length (elementAddrs loc (length (B s)) root quals els) = length els /\
  exists d', result =
    Some (mkValue d' (LValueType (default obj (elementType <$> last els)) quals)).
Proof.
  intros root result. split; [|split].
  - cbn. unfold bind. cbn. apply offsetChain_elements.
  - apply elementAddrs_length.
  - destruct (elementAddress_type els (length (B s)) d obj quals) as (d' & obj' & H & ->).
    by exists d'.
Qed.

(** X6: an expression made of a reference to a stored declaration under
    tuple elements, parentheses, address-of markers and requalifications
    to lvalue types is lowered by one call of the declaration-reference
    emitter and nothing else: when the reference is an address, the path
    is the variable component on it followed by one fragile element for
    each tuple element, innermost first, with the element's field number
    and the rvalue type of its expression; when it is not, the lowering
    fails its assertion.  Such a path resolves without failing. *)
Theorem stored_tuple_lvalue e s (root : Expr) (decl : ValueDecl) ref s1 :
  storedRoot e = Some (root, decl) ->
  emitReferenceToDecl root decl s = (ref, s1) ->
  let path := VarComponent (getValue ref)
                :: map FragileElementComponent (tupleProjections e) in
  visit e s =
    (if isAddress (getValue ref)
     then (Done (map Physical path), s1)
     else (Abort notAnAddress, s1)) /\
  (isAddress (getValue ref) = true ->
   forall loc, exists result s2,
     offsetChain loc path None s1 = (Done result, s2) /\
     isAddress result = true /\
     length (B s2) = length (B s1) + length (tupleProjections e) /\
     Cleanups s2 = Cleanups s1 /\ ownership s2 = ownership s1).
Proof.
  intros Hroot Href path. split.
  - subst path. revert Hroot.
    induction e as [ty d|ty b IH d|ty b IH n|ty sub IH|ty sub IH|ty sub IH|ty k];
      cbn [storedRoot tupleProjections]; intros Hroot; try discriminate.
    + destruct (isPropertyDecl d) eqn:Hprop; [discriminate|].
      injection Hroot as <- <-. by rewrite (visit_stored ty d s ref s1 Hprop Href).
    + specialize (IH Hroot). rewrite visit_tuple. unfold visitTupleElementExpr.
      destruct (isAddress (getValue ref)).
      * rewrite (bind_done _ _ _ _ _ IH). cbn.
        by rewrite !map_app.
      * by rewrite (bind_abort _ _ _ _ _ IH).
    + exact (IH Hroot).
    + exact (IH Hroot).
    + rewrite visit_requalify. destruct (isLValueType ty); [|discriminate].
      exact (IH Hroot).
  - intros Ha loc. destruct (getValue ref) as [[d [| | |obj quals]]|] eqn:Hv;
      try discriminate Ha.
    subst path.
    eexists _, _. split.
    + cbn. unfold bind. cbn. apply offsetChain_elements.
    + destruct (elementAddress_type (tupleProjections e) (length (B s1)) d obj quals)
        as (d' & obj' & -> & _).
      cbn. rewrite length_app, elementAddrs_length. done.
Qed.

(** *** The invoker and the cleanups *)

(** Runs a straight-line piece of code generation on a symbolic state. *)
Ltac exec :=
  unfold partialApplyAccessor, createApply, createRetain,
    emitManagedRValueWithCleanup, forward, forwardCleanup, emit, bind, ret,
    assert, fatal, unmanaged;
  cbn;
  rewrite ?alter_last; cbn;
  rewrite ?length_app; cbn;
  rewrite <- ?app_assoc; cbn;
  rewrite ?Nat.add_1_r, ?Nat.add_0_r; cbn.

(** X7: when the invoker returns, the one cleanup it leaves active is
    that of the thunk it returns: with no application step the thunk is
    the accessor itself, untracked, and the cleanup stack is as it was;
    otherwise the thunk's cleanup is the last one registered, and the
    cleanups of the intermediates before it are dead.  When the invoker
    aborts, the state is untouched. *)
Theorem invoker_leaves_thunk_active c loc accessor base s :
  match partialApplyAccessor c loc accessor base s with
  | (Done thunk, s') =>
      match getCleanup thunk with
      | None =>
          accessorSteps c base = [] /\ thunk = unmanaged accessor /\
          Cleanups s' = Cleanups s
      | Some h =>
          exists earlier : list Value,
            S (length earlier) = length (accessorSteps c base) /\
            h = length (Cleanups s) + length earlier /\
            Cleanups s' = Cleanups s ++ map (fun v => mkCleanup v Dead) earlier
                            ++ [mkCleanup (getValue thunk) Active]
      end
  | (Abort _, s') => s' = s
  end.
Proof.
  destruct s as [b cl ow], c as [g st sub].
  destruct (baseAccepted base) eqn:Hbase.
  - destruct base as [[d t]|], sub as [sv|]; try destruct t; try discriminate Hbase;
      unfold accessorSteps; exec.
    + eexists [_]. cbn. rewrite Nat.add_1_r. by repeat split.
    + exists []. cbn. rewrite Nat.add_0_r. by repeat split.
    + exists []. cbn. rewrite Nat.add_0_r. by repeat split.
    + done.
  - by rewrite (partialApplyAccessor_rejects resultType).
Qed.

(** X8: the value a physical component resolves to is an address,
    whenever its variable component is as the constructor leaves it; so
    a logical component that follows it never fails the receiver assertion
    of the invoker. *)
Theorem physical_result_is_accepted (p : PhysicalPathComponent) loc base s
    (r : Value) s1 c accessor :
  constructed p ->
  offset p loc base s = (Done r, s1) ->
  isAddress r = true /\
  exists thunk s2, partialApplyAccessor c loc accessor r s1 = (Done thunk, s2).
Proof.
  intros Hp Hoff.
  assert (Hr : isAddress r = true).
  { destruct p as [address|el].
    - destruct base; [discriminate|]. cbn in Hoff. by injection Hoff as <- <-.
    - destruct base as [[d [| | |obj quals]]|]; try discriminate.
      rewrite offset_element in Hoff. by injection Hoff as <- <-. }
  split; [done|].
  destruct r as [[d [| | |obj quals]]|]; try discriminate Hr.
  destruct s1 as [b cl ow], c as [g st [sv|]]; exec; by eexists _, _.
Qed.

End Further.

(** * The further properties at work on the samples *)

(** [pair] and [(&(pair).0).1] lowered and resolved. *)
Example pair_0_1_path :
  TupleSample.build TupleSample.pair_0_1 Sample.start =
    (Done [Physical (VarComponent TupleSample.pair_address);
           Physical (FragileElementComponent (mkFragileElement TupleSample.Inner 0));
           Physical (FragileElementComponent (mkFragileElement Sample.Int 1))],
     mkGen [GlobalAddrInst (VarDeclOf (mkVarDecl "pair" false))] [] []).
Proof. reflexivity. Qed.

(** A requalification to [Int] over a call: rejected at the
    requalification, before the call is looked at. *)
Lemma rejected_before_emission_witness :
  exists f,
    Sample.build (RequalifyExpr Sample.Int (OtherExpr Sample.Int "CallExpr"))
      Sample.start = (Abort f, Sample.start) /\
    (f = unimplemented \/ f = badRequalify).
Proof. apply rejected_before_emission. reflexivity. Defined.

Lemma lowerable_is_lowered_witness :
  exists lv s', TupleSample.build TupleSample.pair_0_1 Sample.start = (Done lv, s').
Proof.
  apply (lowerable_is_lowered Sample.emitConstantRef TupleSample.emitReferenceToDecl
           Sample.getTypeInfo); reflexivity.
Defined.

(** A reference to a function, which is not stored at an address. *)
Lemma visit_fails_in_four_ways_witness :
  notAnAddress = unimplemented \/ notAnAddress = notAnAddress \/
  notAnAddress = badRequalify \/ notAnAddress = accessorFailure.
Proof.
  apply (visit_fails_in_four_ways Sample.emitConstantRef Sample.emitReferenceToDecl
           Sample.getTypeInfo
           (DeclRefExpr Sample.Point (OtherValueDecl "make")) Sample.start
           notAnAddress
           (mkGen [ConstantRefInst (mkSILConstant (OtherValueDecl "make") Func)] [] [])).
  reflexivity.
Defined.

Lemma path_length_is_spine_length_witness :
  exists lv s',
    Sample.build Sample.origin_norm Sample.start = (Done lv, s') /\ length lv = 2.
Proof.
  eexists _, _. split; [vm_compute; reflexivity|].
  eapply (path_length_is_spine_length Sample.emitConstantRef Sample.emitReferenceToDecl
           Sample.getTypeInfo Sample.origin_norm Sample.start).
  vm_compute; reflexivity.
Defined.

Lemma stored_tuple_lvalue_witness :
  exists result s2,
    offsetChain 7
      [VarComponent TupleSample.pair_address;
       FragileElementComponent (mkFragileElement TupleSample.Inner 0);
       FragileElementComponent (mkFragileElement Sample.Int 1)]
      None (mkGen [GlobalAddrInst (VarDeclOf (mkVarDecl "pair" false))] [] []) =
      (Done result, s2) /\
    isAddress result = true.
Proof.
  destruct (stored_tuple_lvalue Sample.emitConstantRef TupleSample.emitReferenceToDecl
              Sample.getTypeInfo TupleSample.pair_0_1 Sample.start
              TupleSample.pair (VarDeclOf (mkVarDecl "pair" false))
              (unmanaged TupleSample.pair_address)
              (mkGen [GlobalAddrInst (VarDeclOf (mkVarDecl "pair" false))] [] [])
              eq_refl eq_refl) as [_ H].
  destruct (H eq_refl 7) as (result & s2 & Hres & Haddr & _).
  by exists result, s2.
Defined.

(** The address of [origin.x], as the receiver of [norm]'s setter. *)
Lemma physical_result_is_accepted_witness :
  isAddress (Some (mkValue 0 (LValueType Sample.Int 0%N))) = true /\
  exists thunk s2,
    partialApplyAccessor Sample.resultType Sample.norm 7 Sample.norm_setter
      (Some (mkValue 0 (LValueType Sample.Int 0%N)))
      (mkGen [ElementAddrInst 7 Sample.origin_address 0 (LValueType Sample.Int 0%N)] [] []) =
      (Done thunk, s2).
Proof.
  apply (physical_result_is_accepted Sample.resultType
           (FragileElementComponent (mkFragileElement Sample.Int 0)) 7
           Sample.origin_address Sample.start).
  - exact I.
  - reflexivity.
Defined.
